(** * duperrormsg: a shallow embedding of the analyzer and its properties

    The development follows [duperrormsg/duperrormsg.go]:
    - Go strings are byte strings, here [string] (a list of [ascii] bytes);
    - the pieces of the Go standard library the analyzer calls ([strings],
      [regexp], [go/ast], [go/token]) are modelled first, each next to the
      documented behaviour it stands for;
    - [getErrorConstructName], [extractErrorMessage], [extractStringLiteral]
      and [run] are then transcribed one by one, with run-time panics made
      explicit in a small error monad;
    - iteration over the Go map [errorMap] has no specified order, so [run]
      is parameterised by the enumeration the runtime picks;
    - the messages are built with the verbs [%q] and [%v]: [strconv.Quote]
      is modelled on ASCII text, and [Position.String] as the library
      defines it. *)

From Stdlib Require Import Ascii String.
From stdpp Require Import gmap strings list fin_maps pretty sorting.

Set Warnings "-register-all".

(** ** Bytes and byte classes *)

Definition byte_in (lo hi c : ascii) : bool :=
  ((N_of_ascii lo <=? N_of_ascii c) && (N_of_ascii c <=? N_of_ascii hi))%N.

Definition is_upper (c : ascii) : bool := byte_in "A"%char "Z"%char c.
Definition is_lower (c : ascii) : bool := byte_in "a"%char "z"%char c.
Definition is_digit (c : ascii) : bool := byte_in "0"%char "9"%char c.

(** The class [[a-zA-Z]]. *)
Definition is_letter (c : ascii) : bool := is_lower c || is_upper c.

(** Every byte of the string satisfies the test. *)
Fixpoint str_all (P : ascii -> bool) (s : string) : bool :=
  match s with
  | EmptyString => true
  | String c s' => P c && str_all P s'
  end.

(** ** Package [strings] *)

(** [strings.ToLower] maps every rune to its lower case.  The ASCII letters
    'A'..'Z' are mapped to 'a'..'z'.  Two runes outside ASCII lower to an
    ASCII letter: U+0130 (the bytes 196, 176) to i and U+212A (the bytes
    226, 132, 170) to k; the byte 196 only occurs in UTF-8 as the first byte
    of a two-byte rune and 226 as the first byte of a three-byte rune, so
    the two runes are recognized by their bytes.  Every other rune outside
    ASCII lowers to a rune outside ASCII, and a byte that is not UTF-8 is
    replaced by U+FFFD, outside ASCII too: these bytes are kept here as they
    are.  The analyzer only searches the result for words written in ASCII,
    and a byte of a rune outside ASCII is never a byte of such a word, so
    the searches give what they give on the library's result. *)
Definition lower_byte (c : ascii) : ascii :=
  if is_upper c then ascii_of_N (N_of_ascii c + 32) else c.

Fixpoint strings_ToLower (s : string) : string :=
  match s with
  | EmptyString => EmptyString
  | String c s1 =>
      if is_upper c then String (lower_byte c) (strings_ToLower s1)
      else
        match s1 with
        | EmptyString => String c EmptyString
        | String c1 s2 =>
            if Ascii.eqb c "196"%char && Ascii.eqb c1 "176"%char
            then String "i"%char (strings_ToLower s2)
            else
              match s2 with
              | EmptyString => String c (strings_ToLower s1)
              | String c2 s3 =>
                  if Ascii.eqb c "226"%char && Ascii.eqb c1 "132"%char
                     && Ascii.eqb c2 "170"%char
                  then String "k"%char (strings_ToLower s3)
                  else String c (strings_ToLower s1)
              end
        end
  end.

(** [strings.HasPrefix]: [len(s) >= len(prefix) && s[:len(prefix)] == prefix]. *)
Definition strings_HasPrefix (s prefix : string) : bool :=
  (String.length prefix <=? String.length s)%nat
  && String.eqb (String.substring 0 (String.length prefix) s) prefix.

(** [strings.HasSuffix]: [len(s) >= len(suffix) && s[len(s)-len(suffix):] == suffix]. *)
Definition strings_HasSuffix (s suffix : string) : bool :=
  (String.length suffix <=? String.length s)%nat
  && String.eqb
       (String.substring (String.length s - String.length suffix)
          (String.length suffix) s)
       suffix.

(** [strings.Contains]: some suffix of [s] starts with [substr]. *)
Fixpoint strings_Contains (s substr : string) : bool :=
  String.prefix substr s
  || match s with
     | EmptyString => false
     | String _ s' => strings_Contains s' substr
     end.

Fixpoint in_cutset (cutset : string) (c : ascii) : bool :=
  match cutset with
  | EmptyString => false
  | String d cutset' => Ascii.eqb c d || in_cutset cutset' c
  end.

Fixpoint strings_TrimLeft (s cutset : string) : string :=
  match s with
  | EmptyString => EmptyString
  | String c s' => if in_cutset cutset c then strings_TrimLeft s' cutset else s
  end.

Fixpoint strings_TrimRight (s cutset : string) : string :=
  match s with
  | EmptyString => EmptyString
  | String c s' =>
      match strings_TrimRight s' cutset with
      | EmptyString => if in_cutset cutset c then EmptyString else String c EmptyString
      | r => String c r
      end
  end.

(** [strings.Trim] with an ASCII cutset: every leading and every trailing byte
    that belongs to the cutset is removed (the library trims the right end
    first, then the left end). *)
Definition strings_Trim (s cutset : string) : string :=
  strings_TrimLeft (strings_TrimRight s cutset) cutset.

(** ** Package [regexp] *)

(** The fragment of the syntax used by the analyzer: a sequence of byte
    classes, each taken once or under a greedy star.  The classes of the
    analyzer's pattern hold ASCII bytes only, so matching bytes and matching
    UTF-8 runes agree: a byte of a multi-byte rune is in none of them. *)
Inductive Quantifier := Once | Star.

Record Item := mkItem { item_class : ascii -> bool; item_quant : Quantifier }.

Definition Regexp := list Item.

(** Leftmost-first (backtracking) match of [re] at the start of the input:
    the number of bytes of the match the library prefers, if there is one.
    A greedy star first tries to take one more byte and falls back to the
    rest of the pattern. *)
Fixpoint match_here (re : Regexp) : string -> option nat :=
  match re with
  | [] => fun _ => Some 0%nat
  | it :: re' =>
      match item_quant it with
      | Once => fun s =>
          match s with
          | String c s' =>
              if item_class it c then S <$> match_here re' s' else None
          | EmptyString => None
          end
      | Star =>
          fix star (s : string) : option nat :=
            match s with
            | String c s' =>
                if item_class it c then
                  match star s' with
                  | Some n => Some (S n)
                  | None => match_here re' s
                  end
                else match_here re' s
            | EmptyString => match_here re' s
            end
      end
  end.

(** [Regexp.ReplaceAllString] for a pattern that cannot match the empty
    string and a replacement without [$]: scanning from the left, the
    leftmost match is replaced and the scan resumes after it; a byte at which
    no match starts is copied.  [skip] counts the bytes of the current match
    that are still to be dropped. *)
Fixpoint replace_scan (re : Regexp) (repl : string) (skip : nat) (s : string)
  : string :=
  match s with
  | EmptyString => EmptyString
  | String c s' =>
      match skip with
      | S k => replace_scan re repl k s'
      | O =>
          match match_here re s with
          | Some (S n) => repl +:+ replace_scan re repl n s'
          | _ => String c (replace_scan re repl 0 s')
          end
      end
  end.

Definition regexp_ReplaceAllString (re : Regexp) (src repl : string) : string :=
  replace_scan re repl 0 src.

(** The class [[a-zA-Z0-9\.\-\+#]]. *)
Definition specifier_class (c : ascii) : bool :=
  is_letter c || is_digit c
  || Ascii.eqb c "."%char || Ascii.eqb c "-"%char
  || Ascii.eqb c "+"%char || Ascii.eqb c "#"%char.

(** [regexp.MustCompile(`%[a-zA-Z0-9\.\-\+#]*[a-zA-Z]`)]. *)
Definition formatSpecifier : Regexp :=
  [ mkItem (Ascii.eqb "%"%char) Once;
    mkItem specifier_class Star;
    mkItem is_letter Once ].

(** ** Packages [go/token] and [go/ast] *)

(** [token.Pos] is an integer offset into the file set. *)
Definition token_Pos := Z.
Bind Scope Z_scope with token_Pos.

(** The literal kinds of [token.Token]. *)
Inductive Token := token_INT | token_FLOAT | token_IMAG | token_CHAR | token_STRING.

Definition Token_eqb (a b : Token) : bool :=
  match a, b with
  | token_INT, token_INT | token_FLOAT, token_FLOAT | token_IMAG, token_IMAG
  | token_CHAR, token_CHAR | token_STRING, token_STRING => true
  | _, _ => false
  end.

(** [token.Position]. *)
Record Position := mkPosition {
  Filename : string;
  Offset : Z;
  Line : Z;
  Column : Z
}.

(** [Position.IsValid]: [pos.Line > 0]. *)
Definition Position_IsValid (pos : Position) : bool := (0 <? Line pos)%Z.

(** [Position.String], which is what [%v] prints for a position. *)
Definition Position_String (pos : Position) : string :=
  let s := Filename pos in
  let s :=
    if Position_IsValid pos then
      let s := if negb (String.eqb s "") then s +:+ ":" else s in
      let s := s +:+ pretty (Line pos) in
      if negb (Column pos =? 0)%Z then s +:+ ":" +:+ pretty (Column pos) else s
    else s in
  if String.eqb s "" then "-" else s.

(** [ast.Ident]. *)
Record Ident := mkIdent { NamePos : token_Pos; Name : string }.

(** [ast.Expr], with the node kinds the analyzer inspects; every other kind
    of expression is [EOther] and carries its position only. *)
Inductive Expr :=
| EIdent (id : Ident)
| EBasicLit (ValuePos : token_Pos) (Kind : Token) (Value : string)
| ESelectorExpr (X : Expr) (Sel : Ident)
| ECallExpr (Fun : Expr) (Args : list Expr)
| EOther (pos : token_Pos).

(** [ast.CallExpr], the node type the walker visits. *)
Record CallExpr := mkCall { Fun : Expr; Args : list Expr }.

(** [Node.Pos] for expressions: an identifier and a literal start at their
    own position, a selector at its operand, a call at its callee. *)
Fixpoint Expr_Pos (e : Expr) : token_Pos :=
  match e with
  | EIdent id => NamePos id
  | EBasicLit p _ _ => p
  | ESelectorExpr X _ => Expr_Pos X
  | ECallExpr f _ => Expr_Pos f
  | EOther p => p
  end.

Definition CallExpr_Pos (call : CallExpr) : token_Pos := Expr_Pos (Fun call).

(** ** Panics *)

(** A Go function either returns or panics at run time. *)
Inductive result (A : Type) : Type :=
| Ok (a : A)
| Panic (reason : string).
Arguments Ok {A} a.
Arguments Panic {A} reason.

#[global] Instance result_ret : MRet result := fun A a => Ok a.
#[global] Instance result_bind : MBind result := fun A B f m =>
  match m with
  | Ok a => f a
  | Panic r => Panic r
  end.
#[global] Instance result_fmap : FMap result := fun A B f m =>
  match m with
  | Ok a => Ok (f a)
  | Panic r => Panic r
  end.

(** [l[i]]: indexing a slice out of range panics. *)
Definition index {A : Type} (l : list A) (i : nat) : result A :=
  match l !! i with
  | Some x => Ok x
  | None => Panic "index out of range"
  end.

(** A loop whose body may panic, collecting what each iteration emits. *)
Fixpoint for_each {A B : Type} (body : A -> result (list B)) (l : list A)
  : result (list B) :=
  match l with
  | [] => Ok []
  | x :: l' =>
      out ← body x;
      rest ← for_each body l';
      Ok (out ++ rest)
  end.

(** ** The analyzer *)

Definition dquote : ascii := "034"%char.
Definition backquote : ascii := "`"%char.
Definition backslash : ascii := "092"%char.

(** The text between double quotes, as an interpreted string literal is
    written. *)
Definition dq (s : string) : string := String dquote (s +:+ String dquote EmptyString).

(** The text between backquotes, as a raw string literal is written. *)
Definition bq (s : string) : string :=
  String backquote (s +:+ String backquote EmptyString).

(** The cutset of [strings.Trim(e.Value, ...)]: a backquote and a double
    quote. *)
Definition quote_cutset : string := String backquote (String dquote EmptyString).

Definition extractStringLiteral (expr : Expr) : string :=
  match expr with
  | EBasicLit _ Kind Value =>
      if Token_eqb Kind token_STRING then
        let raw := strings_Trim Value quote_cutset in
        let normalized := regexp_ReplaceAllString formatSpecifier raw "%x" in
        normalized
      else ""
  | _ => ""
  end.

Definition is_CallExpr (e : Expr) : bool :=
  match e with ECallExpr _ _ => true | _ => false end.

Definition logFuncSuffixes : list string :=
  [ ""; "f"; "ln";
    "Error"; "Errorf"; "Errorln";
    "Fatal"; "Fatalf"; "Fatalln";
    "Panic"; "Panicf"; "Panicln";
    "Warning"; "Warningf"; "Warningln";
    "Info"; "Infof"; "Infoln" ].

(** The condition guarding the logging table. *)
Definition is_log_package (name : string) : bool :=
  String.eqb name "log" || strings_Contains (strings_ToLower name) "log".

(** The loop over [logFuncSuffixes]. *)
Definition is_log_func (sel : string) : bool :=
  existsb (fun suffix =>
             String.eqb sel suffix
             || String.eqb sel ("Log" +:+ suffix)
             || String.eqb sel ("Print" +:+ suffix))
          logFuncSuffixes.

(** The naming test on a selector. *)
Definition is_constructor_method (sel : string) : bool :=
  strings_HasSuffix sel "Error"
  || strings_HasPrefix sel "New"
  || strings_Contains sel "Error"
  || strings_Contains (strings_ToLower sel) "fail".

(** The naming test on a bare function identifier. *)
Definition is_constructor_func (name : string) : bool :=
  strings_HasPrefix name "New"
  && (strings_Contains name "Error"
      || strings_Contains name "Err"
      || strings_Contains name "Fail").

(** The names tested for a chained call. *)
Definition is_chained_log_method (sel : string) : bool :=
  String.eqb sel "Logf" || String.eqb sel "LogErrorf"
  || String.eqb sel "LogError" || String.eqb sel "Log".

(** The block entered when [call.Fun] is a selector expression: [Some] is a
    value returned from inside the block, [None] is falling out of it. *)
Definition selector_construct (f : Expr) : option string :=
  match f with
  | ESelectorExpr X Sel =>
      if is_CallExpr X && is_chained_log_method (Name Sel) then Some (Name Sel)
      else
        match X with
        | EIdent pkgIdent =>
            if String.eqb (Name pkgIdent) "errors" && String.eqb (Name Sel) "New"
            then Some "errors.New"
            else if String.eqb (Name pkgIdent) "fmt" && String.eqb (Name Sel) "Errorf"
            then Some "fmt.Errorf"
            else if is_log_package (Name pkgIdent) && is_log_func (Name Sel)
            then Some (Name pkgIdent)
            else if is_constructor_method (Name Sel)
            then Some (Name Sel)
            else None
        | _ => None
        end
  | _ => None
  end.

(** The block entered when [call.Fun] is a bare identifier. *)
Definition ident_construct (f : Expr) : option string :=
  match f with
  | EIdent ident =>
      if is_constructor_func (Name ident) then Some (Name ident) else None
  | _ => None
  end.

Definition getErrorConstructName (call : CallExpr) : string :=
  match selector_construct (Fun call) with
  | Some name => name
  | None =>
      match ident_construct (Fun call) with
      | Some name => name
      | None => ""
      end
  end.

(** The test [ok && lit.Kind == token.STRING] after asserting that the
    argument is a basic literal. *)
Definition is_string_lit (e : Expr) : bool :=
  match e with
  | EBasicLit _ Kind _ => Token_eqb Kind token_STRING
  | _ => false
  end.

(** The constructs listed in the third case of the switch. *)
Definition first_arg_constructs : list string :=
  [ "log"; "logger"; "Log"; "Logf"; "LogError"; "LogErrorf" ].

(** The [switch construct] of [extractErrorMessage]: [Ok None] is a return of
    two empty strings from inside the switch, [Ok (Some e)] leaves the switch
    with [msgArg = e]. *)
Definition select_msgArg (construct : string) (args : list Expr)
  : result (option Expr) :=
  if String.eqb construct "errors.New" then
    if negb (length args =? 1)%nat then Ok None
    else Some <$> index args 0
  else if String.eqb construct "fmt.Errorf" then
    Some <$> index args 0
  else if existsb (String.eqb construct) first_arg_constructs then
    Some <$> index args 0
  else
    if (0 <? length args)%nat then
      a0 ← index args 0;
      if is_string_lit a0 then Ok (Some a0)
      else Ok (find is_string_lit args)
    else Ok None.

Definition extractErrorMessage (call : CallExpr) : result (string * string) :=
  let construct := getErrorConstructName call in
  if String.eqb construct "" then Ok ("", "")
  else if (length (Args call) =? 0)%nat then Ok ("", "")
  else
    sel ← select_msgArg construct (Args call);
    match sel with
    | None => Ok ("", "")
    | Some msgArg =>
        let msg := extractStringLiteral msgArg in
        if String.eqb msg "" then Ok ("", "") else Ok (construct, msg)
    end.

(** [ErrorInfo]: the node of the call and the construct it was matched as. *)
Record ErrorInfo := mkErrorInfo { Pos : CallExpr; Construct : string }.

(** What [pass.Reportf] records: a position and the formatted message. *)
Record Diagnostic := mkDiagnostic { diag_Pos : token_Pos; diag_Message : string }.

(** The body of the [Preorder] callback, on the map built so far.  Reading a
    missing key of a Go map gives the nil slice. *)
Definition visit (errorMap : gmap string (list ErrorInfo)) (node : CallExpr)
  : result (gmap string (list ErrorInfo)) :=
  '(construct, msg) ← extractErrorMessage node;
  if String.eqb construct "" || String.eqb msg "" then Ok errorMap
  else
    let info := mkErrorInfo node construct in
    Ok (<[msg := default [] (errorMap !! msg) ++ [info]]> errorMap).

(** [inspector.Preorder] over the call expressions of the package, given in
    the order in which the inspector visits them. *)
Fixpoint Preorder (nodes : list CallExpr) (errorMap : gmap string (list ErrorInfo))
  : result (gmap string (list ErrorInfo)) :=
  match nodes with
  | [] => Ok errorMap
  | node :: nodes' =>
      errorMap' ← visit errorMap node;
      Preorder nodes' errorMap'
  end.

Section Pass.

(** [pass.Fset.Position], supplied with the pass. *)
Variable Fset_Position : token_Pos -> Position.

(** What [strconv.Quote] writes for a run of bytes outside ASCII.  The
    library decodes such a run into runes, copies the runes that the Unicode
    tables hold printable and escapes the others and the bytes that are not
    UTF-8; an ASCII byte is never part of a rune outside ASCII, so a maximal
    run of such bytes is rendered on its own.  The tables are not modelled
    and the rendering is left open. *)
Variable quote_escapes : string -> string.

(** A printable ASCII byte that [strconv.Quote] copies as it is: neither the
    double quote nor the backslash. *)
Definition is_plain (c : ascii) : bool :=
  byte_in " "%char "~"%char c
  && negb (Ascii.eqb c dquote) && negb (Ascii.eqb c backslash).

(** A byte below [utf8.RuneSelf]. *)
Definition is_ascii (c : ascii) : bool := (N_of_ascii c <? 128)%N.

(** [lowerhex[n]], for [n] below 16. *)
Definition lowerhex (n : N) : ascii :=
  default "0"%char (String.get (N.to_nat n) "0123456789abcdef").

(** [appendEscapedRune] on an ASCII byte, the quote being the double quote:
    the quote and the backslash get a backslash, a printable byte is copied,
    the control bytes with a letter of their own get it, and the other
    control bytes are written with two hexadecimal digits. *)
Definition escaped_byte (c : ascii) : string :=
  if Ascii.eqb c dquote || Ascii.eqb c backslash then String backslash (String c "")
  else if byte_in " "%char "~"%char c then String c ""
  else if Ascii.eqb c "007"%char then String backslash "a"
  else if Ascii.eqb c "008"%char then String backslash "b"
  else if Ascii.eqb c "012"%char then String backslash "f"
  else if Ascii.eqb c "010"%char then String backslash "n"
  else if Ascii.eqb c "013"%char then String backslash "r"
  else if Ascii.eqb c "009"%char then String backslash "t"
  else if Ascii.eqb c "011"%char then String backslash "v"
  else String backslash
         (String "x"%char
            (String (lowerhex (N_of_ascii c / 16))
               (String (lowerhex (N_of_ascii c mod 16)) ""))).

(** The pending run of bytes outside ASCII, rendered when it ends. *)
Definition quote_run (pending : string) : string :=
  if String.eqb pending "" then "" else quote_escapes pending.

(** The loop of [strconv.Quote] over the string, between the quotes. *)
Fixpoint quote_scan (pending s : string) : string :=
  match s with
  | EmptyString => quote_run pending
  | String c s' =>
      if is_ascii c then quote_run pending +:+ escaped_byte c +:+ quote_scan "" s'
      else quote_scan (pending +:+ String c "") s'
  end.

(** The verb [%q] of package [fmt] on a string, without flags:
    [strconv.Quote]. *)
Definition fmt_q (s : string) : string := dq (quote_scan "" s).

Definition primary_message (msg : string) : string :=
  "duplicate error message " +:+ fmt_q msg +:+ " used in multiple locations".

Definition secondary_message (msg : string) (first : Position) : string :=
  "duplicate error message " +:+ fmt_q msg +:+ " also used at "
  +:+ Position_String first.

(** The body of the loop over [errorMap]. *)
Definition report_entry (entry : string * list ErrorInfo)
  : result (list Diagnostic) :=
  let '(msg, locations) := entry in
  if (1 <? length locations)%nat then
    firstLoc ← index locations 0;
    let d0 := mkDiagnostic (CallExpr_Pos (Pos firstLoc)) (primary_message msg) in
    rest ← for_each
             (fun i =>
                loc ← index locations i;
                Ok [ mkDiagnostic (CallExpr_Pos (Pos loc))
                       (secondary_message msg
                          (Fset_Position (CallExpr_Pos (Pos firstLoc)))) ])
             (seq 1 (length locations - 1));
    Ok (d0 :: rest)
  else Ok [].

(** [run], returning the diagnostics in the order they are reported.  The
    language leaves the order of [range] over a map unspecified: [range]
    is the enumeration of the entries the runtime happens to produce. *)
Definition run
    (range : gmap string (list ErrorInfo) -> list (string * list ErrorInfo))
    (nodes : list CallExpr) : result (list Diagnostic) :=
  errorMap ← Preorder nodes ∅;
  for_each report_entry (range errorMap).

(** The diagnostic for the first occurrence of a key, and the one for a
    later occurrence. *)
Definition primary_diagnostic (msg : string) (firstLoc : ErrorInfo) : Diagnostic :=
  mkDiagnostic (CallExpr_Pos (Pos firstLoc)) (primary_message msg).

Definition secondary_diagnostic (msg : string) (firstLoc loc : ErrorInfo) : Diagnostic :=
  mkDiagnostic (CallExpr_Pos (Pos loc))
    (secondary_message msg (Fset_Position (CallExpr_Pos (Pos firstLoc)))).

(** The diagnostics of one map entry, in the order they are reported. *)
Definition group_diagnostics (entry : string * list ErrorInfo) : list Diagnostic :=
  match entry.2 with
  | firstLoc :: loc :: others =>
      primary_diagnostic entry.1 firstLoc
      :: map (secondary_diagnostic entry.1 firstLoc) (loc :: others)
  | _ => []
  end.

End Pass.

(** An enumeration a [range] loop may produce: every entry exactly once. *)
Definition map_range (range : gmap string (list ErrorInfo) -> list (string * list ErrorInfo))
  : Prop :=
  forall m, range m ≡ₚ map_to_list m.

(** ** Building test inputs *)

Definition str_lit (p : token_Pos) (tok : string) : Expr := EBasicLit p token_STRING tok.

(** The call [x.sel(args)] with [x] at position [p]. *)
Definition qualified (p : token_Pos) (x sel : string) (args : list Expr) : CallExpr :=
  mkCall (ESelectorExpr (EIdent (mkIdent p x))
            (mkIdent (p + 1 + Z.of_nat (String.length x))%Z sel))
         args.

Definition errors_New (p : token_Pos) (args : list Expr) := qualified p "errors" "New" args.
Definition fmt_Errorf (p : token_Pos) (args : list Expr) := qualified p "fmt" "Errorf" args.

(** The call [f(args)] of a bare function name. *)
Definition bare (p : token_Pos) (f : string) (args : list Expr) : CallExpr :=
  mkCall (EIdent (mkIdent p f)) args.

(** A file set with one file of 100-byte lines. *)
Definition test_Fset (p : token_Pos) : Position :=
  mkPosition "a.go" p (p / 100 + 1)%Z (p mod 100 + 1)%Z.

(** A stand-in for the rendering of the bytes outside ASCII, which copies
    them as the library does for printable runes; the sample keys have
    none. *)
Definition plain_q (s : string) : string := s.

Definition test_nodes : list CallExpr :=
  [ errors_New 100 [str_lit 111 (dq "connection failed")];
    errors_New 200 [str_lit 211 (dq "validation error")];
    errors_New 300 [str_lit 311 (dq "connection failed")];
    fmt_Errorf 400 [str_lit 411 (dq "validation error")];
    errors_New 500 [str_lit 511 (dq "error one")] ].

(** The call expressions of [testdata/src/tests], in source order, at
    position 100 * line + column. *)
Definition testdata_nodes : list CallExpr :=
  [ errors_New 1102 [str_lit 1113 (dq "connection failed")];
    errors_New 1202 [str_lit 1213 (dq "connection failed")];
    errors_New 1702 [str_lit 1713 (dq "validation error")];
    fmt_Errorf 1802 [str_lit 1813 (dq "validation error")];
    fmt_Errorf 2302 [str_lit 2313 (dq "user %s not found"); str_lit 2334 (dq "john")];
    fmt_Errorf 2402 [str_lit 2413 (dq "user %v not found"); str_lit 2434 (dq "jane")];
    errors_New 2902 [str_lit 2913 (dq "error one")];
    errors_New 3002 [str_lit 3013 (dq "error two")];
    errors_New 3102 [str_lit 3113 (dq "error three")];
    qualified 3602 "log" "Printf" [str_lit 3613 (dq "failed to process item")];
    qualified 3702 "log" "Printf" [str_lit 3713 (dq "failed to process item")];
    bare 4202 "NewUserError" [str_lit 4215 (dq "invalid input")];
    bare 4302 "NewItemError" [str_lit 4315 (dq "invalid input")];
    errors_New 4809 [EIdent (mkIdent 4820 "msg")];
    errors_New 5209 [EIdent (mkIdent 5220 "msg")] ].

(** The lines of the diagnostics, sorted. *)
Definition diagnostic_lines (ds : list Diagnostic) : list Z :=
  merge_sort Z.le ((fun d => (diag_Pos d / 100)%Z) <$> ds).

(** ** Notions used to state the properties *)

Definition starts_with (P : ascii -> bool) (s : string) : bool :=
  match s with
  | EmptyString => false
  | String c _ => P c
  end.

Fixpoint ends_with (P : ascii -> bool) (s : string) : bool :=
  match s with
  | EmptyString => false
  | String c s' =>
      match s' with
      | EmptyString => P c
      | String _ _ => ends_with P s'
      end
  end.

(** The pattern after its leading percent sign. *)
Definition specifier_rest : Regexp :=
  [ mkItem specifier_class Star; mkItem is_letter Once ].

(** The words a specifier is made of, after the percent sign: bytes of the
    class, the last of which is a letter. *)
Fixpoint specifier_tail (w : string) : bool :=
  match w with
  | EmptyString => false
  | String c w' =>
      match w' with
      | EmptyString => is_letter c
      | String _ _ => specifier_class c && specifier_tail w'
      end
  end.

(** A format specifier: a percent sign, zero or more bytes of the class
    [[a-zA-Z0-9.+#-]], and a letter. *)
Definition is_specifier (w : string) : bool :=
  match w with
  | EmptyString => false
  | String c w' => Ascii.eqb "%"%char c && specifier_tail w'
  end.

(** The second step of [extractStringLiteral], on the trimmed text. *)
Definition normalize_specifiers (raw : string) : string :=
  regexp_ReplaceAllString formatSpecifier raw "%x".

(** What a call node adds to the map, if anything: its key and its record. *)
Definition occurrence (node : CallExpr) : option (string * ErrorInfo) :=
  match extractErrorMessage node with
  | Ok (construct, msg) =>
      if String.eqb construct "" || String.eqb msg "" then None
      else Some (msg, mkErrorInfo node construct)
  | Panic _ => None
  end.

Definition record (errorMap : gmap string (list ErrorInfo)) (node : CallExpr)
  : gmap string (list ErrorInfo) :=
  match occurrence node with
  | Some (msg, info) => <[msg := default [] (errorMap !! msg) ++ [info]]> errorMap
  | None => errorMap
  end.

(** The map at the end of the traversal. *)
Definition registry (nodes : list CallExpr) : gmap string (list ErrorInfo) :=
  foldl record ∅ nodes.

(** The occurrences of a key, in traversal order. *)
Definition group_of (key : string) (nodes : list CallExpr) : list ErrorInfo :=
  omap (fun node =>
          match occurrence node with
          | Some (msg, info) => if String.eqb msg key then Some info else None
          | None => None
          end) nodes.

(** The class as the specification words it: digits and the bytes
    [.], [-], [+], [#], without the letters. *)
Definition spec_class (c : ascii) : bool :=
  is_digit c || Ascii.eqb c "."%char || Ascii.eqb c "-"%char
  || Ascii.eqb c "+"%char || Ascii.eqb c "#"%char.

(** The pattern as the specification words it. *)
Definition spec_formatSpecifier : Regexp :=
  [ mkItem (Ascii.eqb "%"%char) Once;
    mkItem spec_class Star;
    mkItem is_letter Once ].

Definition is_quote : ascii -> bool := in_cutset quote_cutset.

(** The call [mylog.Printf(format, "later")], whose first argument is an
    identifier, and the same call on the package [log]. *)
Definition later_args : list Expr :=
  [ EIdent (mkIdent 113 "format"); str_lit 121 (dq "later") ].

(** The resolution of the message argument as the fallback rule words it. *)
Definition fallback_msgArg (args : list Expr) : option Expr :=
  match args with
  | [] => None
  | a0 :: _ => if is_string_lit a0 then Some a0 else find is_string_lit args
  end.

(** The constructs with a case of their own in the switch. *)
Definition switch_cases : list string :=
  "errors.New" :: "fmt.Errorf" :: first_arg_constructs.

(** A selector call that one of the rules placed before the naming test
    matches: one of the four log methods on the result of a call, and on a
    bare identifier [errors.New], [fmt.Errorf] and the logging table. *)
Definition matched_earlier (X : Expr) (Sel : Ident) : bool :=
  match X with
  | ECallExpr _ _ => is_chained_log_method (Name Sel)
  | EIdent pkgIdent =>
      String.eqb (Name pkgIdent) "errors" && String.eqb (Name Sel) "New"
      || String.eqb (Name pkgIdent) "fmt" && String.eqb (Name Sel) "Errorf"
      || is_log_package (Name pkgIdent) && is_log_func (Name Sel)
  | _ => false
  end.

Definition is_Ident (e : Expr) : bool :=
  match e with EIdent _ => true | _ => false end.

(** The line feed byte, and the escape sequence that stands for it in an
    interpreted literal: a backslash and the letter n. *)
Definition LF : ascii := "010"%char.
Definition escaped_LF : string := String backslash "n".

(** The escape sequence for a double quote: a backslash and the quote. *)
Definition escaped_quote : string := String backslash (String dquote "").

(** What a construct makes of the argument chosen as its message: nothing
    when the argument has no key. *)
Definition message_of (construct : string) (msgArg : Expr) : string * string :=
  if String.eqb (extractStringLiteral msgArg) "" then ("", "")
  else (construct, extractStringLiteral msgArg).

(** The callee shapes [getErrorConstructName] looks into: a bare identifier,
    a selector on a bare identifier, and one of the four log methods on the
    result of a call. *)
Definition callee_inspected (f : Expr) : bool :=
  match f with
  | EIdent _ => true
  | ESelectorExpr (EIdent _) _ => true
  | ESelectorExpr (ECallExpr _ _) Sel => is_chained_log_method (Name Sel)
  | _ => false
  end.

(** A node that is recorded under a key with more than one occurrence. *)
Definition duplicated (nodes : list CallExpr) (node : CallExpr) : bool :=
  match occurrence node with
  | Some (key, _) => (1 <? length (group_of key nodes))%nat
  | None => false
  end.

(** A node that adds an occurrence to the map. *)
Definition is_recorded (node : CallExpr) : bool :=
  match occurrence node with
  | Some _ => true
  | None => false
  end.

(** The records of the nodes that are recorded, in traversal order. *)
Definition recorded (nodes : list CallExpr) : list ErrorInfo :=
  omap (fun node => snd <$> occurrence node) nodes.

(** What [strconv.Quote] writes between the quotes for a text made of ASCII
    bytes: the rendering of its bytes, one after the other. *)
Fixpoint escaped_bytes (s : string) : string :=
  match s with
  | EmptyString => EmptyString
  | String c s' => escaped_byte c +:+ escaped_bytes s'
  end.

(** The number of bytes of a string equal to a given byte. *)
Fixpoint count_byte (x : ascii) (s : string) : nat :=
  match s with
  | EmptyString => 0%nat
  | String c s' => ((if Ascii.eqb c x then 1 else 0) + count_byte x s')%nat
  end.

(** A byte that is neither a quote, nor a backquote, nor a percent sign,
    nor a carriage return. *)
Definition is_clean (c : ascii) : bool :=
  negb (is_quote c) && negb (Ascii.eqb "%"%char c)
  && negb (Ascii.eqb c "013"%char).

(** ** Interpreted string literals

    The text between the quotes of an interpreted string literal is a
    sequence of bytes written as they are and of escape sequences, as the
    language specification defines them. *)

Definition is_octal_digit (c : ascii) : bool := byte_in "0"%char "7"%char c.

Definition is_hex_digit (c : ascii) : bool :=
  is_digit c || byte_in "a"%char "f"%char c || byte_in "A"%char "F"%char c.

(** The value of a hexadecimal digit (an octal digit is one). *)
Definition digit_value (c : ascii) : N :=
  if is_digit c then (N_of_ascii c - 48)%N
  else if byte_in "a"%char "f"%char c then (N_of_ascii c - 87)%N
  else (N_of_ascii c - 55)%N.

(** The number written by digits in a base. *)
Definition number (base : N) (ds : list ascii) : N :=
  foldl (fun acc d => (base * acc + digit_value d)%N) 0%N ds.

(** A code point an escape sequence may stand for: at most U+10FFFF and not
    a surrogate half. *)
Definition valid_code_point (r : N) : bool :=
  ((r <? 55296) || ((57343 <? r) && (r <=? 1114111)))%N.

(** The continuation byte [10xxxxxx] holding the six bits of [r] from bit
    [i] on. *)
Definition continuation_byte (r i : N) : ascii :=
  Ascii (N.testbit r i) (N.testbit r (i + 1)) (N.testbit r (i + 2))
        (N.testbit r (i + 3)) (N.testbit r (i + 4)) (N.testbit r (i + 5))
        false true.

(** The UTF-8 encoding of a code point ([utf8.AppendRune]). *)
Definition utf8_AppendRune (r : N) : string :=
  if (r <? 128)%N then String (ascii_of_N r) ""
  else if (r <? 2048)%N then
    String (Ascii (N.testbit r 6) (N.testbit r 7) (N.testbit r 8)
                  (N.testbit r 9) (N.testbit r 10) false true true)
      (String (continuation_byte r 0) "")
  else if (r <? 65536)%N then
    String (Ascii (N.testbit r 12) (N.testbit r 13) (N.testbit r 14)
                  (N.testbit r 15) false true true true)
      (String (continuation_byte r 6) (String (continuation_byte r 0) ""))
  else
    String (Ascii (N.testbit r 18) (N.testbit r 19) (N.testbit r 20)
                  false true true true true)
      (String (continuation_byte r 12)
         (String (continuation_byte r 6) (String (continuation_byte r 0) ""))).

(** The escape sequences, by what follows the backslash: one of the
    characters a, b, f, n, r, t, v, backslash and double quote; three octal
    digits; x and two hexadecimal digits; u and four; U and eight. *)
Inductive Escape :=
| EscSimple (c : ascii)
| EscOctal (d1 d2 d3 : ascii)
| EscHex (h1 h2 : ascii)
| EscLittleU (h1 h2 h3 h4 : ascii)
| EscBigU (h1 h2 h3 h4 h5 h6 h7 h8 : ascii).

(** The text of an escape sequence after its backslash. *)
Definition escape_text (e : Escape) : string :=
  match e with
  | EscSimple c => String c ""
  | EscOctal d1 d2 d3 => String d1 (String d2 (String d3 ""))
  | EscHex h1 h2 => String "x"%char (String h1 (String h2 ""))
  | EscLittleU h1 h2 h3 h4 =>
      String "u"%char (String h1 (String h2 (String h3 (String h4 ""))))
  | EscBigU h1 h2 h3 h4 h5 h6 h7 h8 =>
      String "U"%char
        (String h1 (String h2 (String h3 (String h4
           (String h5 (String h6 (String h7 (String h8 ""))))))))
  end.

(** The bytes an escape sequence stands for, if it is one the compiler
    accepts in a string literal: a byte for the simple, octal (at most 255)
    and hexadecimal escapes, the UTF-8 encoding of the code point for the
    other two. *)
Definition escape_value (e : Escape) : option string :=
  match e with
  | EscSimple c =>
      if Ascii.eqb c "a"%char then Some (String "007"%char "")
      else if Ascii.eqb c "b"%char then Some (String "008"%char "")
      else if Ascii.eqb c "f"%char then Some (String "012"%char "")
      else if Ascii.eqb c "n"%char then Some (String "010"%char "")
      else if Ascii.eqb c "r"%char then Some (String "013"%char "")
      else if Ascii.eqb c "t"%char then Some (String "009"%char "")
      else if Ascii.eqb c "v"%char then Some (String "011"%char "")
      else if Ascii.eqb c backslash then Some (String backslash "")
      else if Ascii.eqb c dquote then Some (String dquote "")
      else None
  | EscOctal d1 d2 d3 =>
      if forallb is_octal_digit [d1; d2; d3]
         && (number 8 [d1; d2; d3] <=? 255)%N
      then Some (String (ascii_of_N (number 8 [d1; d2; d3])) "")
      else None
  | EscHex h1 h2 =>
      if forallb is_hex_digit [h1; h2]
      then Some (String (ascii_of_N (number 16 [h1; h2])) "")
      else None
  | EscLittleU h1 h2 h3 h4 =>
      if forallb is_hex_digit [h1; h2; h3; h4]
         && valid_code_point (number 16 [h1; h2; h3; h4])
      then Some (utf8_AppendRune (number 16 [h1; h2; h3; h4]))
      else None
  | EscBigU h1 h2 h3 h4 h5 h6 h7 h8 =>
      if forallb is_hex_digit [h1; h2; h3; h4; h5; h6; h7; h8]
         && valid_code_point (number 16 [h1; h2; h3; h4; h5; h6; h7; h8])
      then Some (utf8_AppendRune (number 16 [h1; h2; h3; h4; h5; h6; h7; h8]))
      else None
  end.

(** An element of the text of an interpreted literal. *)
Inductive LitElem :=
| LitByte (b : ascii)
| LitEscape (e : Escape).

Definition is_escape (x : LitElem) : bool :=
  match x with LitEscape _ => true | LitByte _ => false end.

(** The element as it is written in the source. *)
Definition elem_text (x : LitElem) : string :=
  match x with
  | LitByte b => String b ""
  | LitEscape e => String backslash (escape_text e)
  end.

(** The bytes the element contributes to the value of the literal.  A
    backslash, a double quote and a line feed cannot be written as they
    are. *)
Definition elem_value (x : LitElem) : option string :=
  match x with
  | LitByte b =>
      if Ascii.eqb b backslash || Ascii.eqb b dquote || Ascii.eqb b LF then None
      else Some (String b "")
  | LitEscape e => escape_value e
  end.

(** The text between the quotes, as written. *)
Fixpoint written (elems : list LitElem) : string :=
  match elems with
  | [] => ""
  | x :: elems' => elem_text x +:+ written elems'
  end.

(** The string value the literal denotes at run time, if the literal is
    well formed. *)
Fixpoint denoted (elems : list LitElem) : option string :=
  match elems with
  | [] => Some ""
  | x :: elems' =>
      v ← elem_value x;
      vs ← denoted elems';
      Some (v +:+ vs)
  end.

(** An element whose escape sequence stands for a backslash and is written
    with digits. *)
Definition tight (x : LitElem) : Prop :=
  match x with
  | LitByte _ => True
  | LitEscape e =>
      escape_value e = Some (String backslash "")
      /\ str_all is_clean (escape_text e) = true
  end.

(** The carriage return byte. *)
Definition CR : ascii := "013"%char.

(** The string value a raw literal denotes, from the text between its
    backquotes: the text without its carriage returns.  The text of a raw
    literal holds no backquote. *)
Fixpoint raw_value (content : string) : option string :=
  match content with
  | EmptyString => Some ""
  | String c content' =>
      if Ascii.eqb c backquote then None
      else
        v ← raw_value content';
        Some (if Ascii.eqb c CR then v else String c v)
  end.

(** The literal "a\tb\x5c", whose value is a, a tabulation, b and a
    backslash. *)
Definition sample_elems : list LitElem :=
  [ LitByte "a"%char; LitEscape (EscSimple "t"%char); LitByte "b"%char;
    LitEscape (EscHex "5"%char "c"%char) ].

(** * Properties *)

(** ** The model on examples *)

(** The diagnostics are on the lines the annotations of the test data
    expect, and on no other. *)
Example testdata_lines :
  diagnostic_lines <$> run test_Fset plain_q map_to_list testdata_nodes
  = Ok [11; 12; 17; 18; 23; 24; 36; 37; 42; 43]%Z.
Proof. vm_compute. reflexivity. Qed.

Example percent_untouched :
  normalize_specifiers "50% of 100%, 5 %% or %5 left"
  = "50% of 100%, 5 %% or %5 left".
Proof. reflexivity. Qed.

Example chained_Logf :
  getErrorConstructName
    (mkCall (ESelectorExpr
               (ECallExpr (ESelectorExpr (EIdent (mkIdent 1 "logger")) (mkIdent 8 "Info")) [])
               (mkIdent 15 "Logf"))
            [str_lit 20 (dq "x")])
  = "Logf".
Proof. reflexivity. Qed.

Example formatSpecifier_s : match_here formatSpecifier "%s not" = Some 2%nat.
Proof. reflexivity. Qed.
Example formatSpecifier_run : match_here formatSpecifier "%-5.2fabc9 x" = Some 9%nat.
Proof. reflexivity. Qed.
Example formatSpecifier_none : match_here formatSpecifier "%5 x" = None.
Proof. reflexivity. Qed.
Example replace_ex :
  regexp_ReplaceAllString formatSpecifier "user %s not found: %+v (100%)" "%x"
  = "user %x not found: %x (100%)".
Proof. reflexivity. Qed.

(** The specifier ends at the last letter of the run of class bytes that
    follows the percent sign. *)
Example verb_then_letters : normalize_specifiers "took %dms" = "took %x".
Proof. reflexivity. Qed.
Example verb_then_digit : normalize_specifiers "took %d5 ms" = "took %x5 ms".
Proof. reflexivity. Qed.

(** [%q] on keys that hold a quote, control bytes and bytes outside ASCII. *)
Example quoted_keys (quote_escapes : string -> string) :
  fmt_q quote_escapes "connection failed" = dq "connection failed"
  /\ fmt_q quote_escapes ("say " +:+ dq "hi" +:+ " now")
     = dq ("say " +:+ escaped_quote +:+ "hi" +:+ escaped_quote +:+ " now")
  /\ fmt_q quote_escapes (String "009"%char (String "001"%char (String "127"%char "")))
     = dq (String backslash "t" +:+ String backslash "x01" +:+ String backslash "x7f")
  /\ fmt_q quote_escapes ("caf" +:+ String "195"%char (String "169"%char " ferm"))
     = dq ("caf" +:+ quote_escapes (String "195"%char (String "169"%char ""))
           +:+ " ferm").
Proof. repeat split; reflexivity. Qed.

(** The escape sequences of the language specification and their values. *)
Example escape_values :
  escape_value (EscSimple "n"%char) = Some (String LF "")
  /\ escape_value (EscSimple dquote) = Some (String dquote "")
  /\ escape_value (EscSimple "'"%char) = None
  /\ escape_value (EscOctal "1"%char "0"%char "1"%char) = Some "A"
  /\ escape_value (EscOctal "4"%char "0"%char "0"%char) = None
  /\ escape_value (EscHex "4"%char "1"%char) = Some "A"
  /\ escape_value (EscHex "5"%char "C"%char) = Some (String backslash "")
  /\ escape_value (EscLittleU "0"%char "0"%char "e"%char "9"%char)
     = Some (String "195"%char (String "169"%char ""))
  /\ escape_value (EscLittleU "d"%char "8"%char "0"%char "0"%char) = None
  /\ escape_value
       (EscBigU "0"%char "0"%char "0"%char "1"%char "F"%char "6"%char "0"%char "0"%char)
     = Some (String "240"%char (String "159"%char (String "152"%char
               (String "128"%char ""))))
  /\ escape_value
       (EscBigU "0"%char "0"%char "1"%char "1"%char "0"%char "0"%char "0"%char "0"%char)
     = None.
Proof. repeat split; reflexivity. Qed.

(** A raw literal keeps its backslashes and loses its carriage returns. *)
Example raw_values :
  raw_value (String backslash "n") = Some (String backslash "n")
  /\ raw_value ("a" +:+ String CR (String LF "b")) = Some ("a" +:+ String LF "b")
  /\ raw_value ("a" +:+ String backquote "b") = None.
Proof. repeat split; reflexivity. Qed.

(** ** Strings *)

Lemma str_app_nil_l (s : string) : "" +:+ s = s.
Proof. reflexivity. Qed.

Lemma str_app_cons (c : ascii) (a b : string) :
  String c a +:+ b = String c (a +:+ b).
Proof. reflexivity. Qed.

Lemma str_app_nil_r (s : string) : s +:+ "" = s.
Proof. induction s as [|c s IH]; [reflexivity|]. by rewrite str_app_cons, IH. Qed.

Lemma str_app_assoc (a b c : string) : (a +:+ b) +:+ c = a +:+ (b +:+ c).
Proof.
  induction a as [|x a IH]; [reflexivity|].
  by rewrite !str_app_cons, IH.
Qed.

Lemma str_length_app (a b : string) :
  String.length (a +:+ b) = (String.length a + String.length b)%nat.
Proof.
  induction a as [|x a IH]; [reflexivity|].
  rewrite str_app_cons. simpl. by rewrite IH.
Qed.

(** ** The format-specifier pattern *)

Lemma is_letter_class (c : ascii) : is_letter c = true -> specifier_class c = true.
Proof. unfold specifier_class. by intros ->. Qed.

Lemma match_rest_nil : match_here specifier_rest "" = None.
Proof. reflexivity. Qed.

Lemma match_rest_cons (c : ascii) (s : string) :
  match_here specifier_rest (String c s) =
    if specifier_class c then
      match match_here specifier_rest s with
      | Some n => Some (S n)
      | None => if is_letter c then Some 1%nat else None
      end
    else None.
Proof.
  change (match_here specifier_rest (String c s)) with
    (if specifier_class c then
       match match_here specifier_rest s with
       | Some n => Some (S n)
       | None => if is_letter c then S <$> Some 0%nat else None
       end
     else if is_letter c then S <$> Some 0%nat else None).
  destruct (specifier_class c) eqn:Hc; [reflexivity|].
  destruct (is_letter c) eqn:Hl; [|reflexivity].
  apply is_letter_class in Hl. congruence.
Qed.

Lemma match_spec_nil : match_here formatSpecifier "" = None.
Proof. reflexivity. Qed.

Lemma match_spec_cons (c : ascii) (s : string) :
  match_here formatSpecifier (String c s) =
    if Ascii.eqb "%"%char c then S <$> match_here specifier_rest s else None.
Proof. reflexivity. Qed.

Lemma match_rest_sound (s : string) (n : nat) :
  match_here specifier_rest s = Some n ->
  exists w rest, s = w +:+ rest /\ String.length w = n /\ specifier_tail w = true.
Proof.
  revert n. induction s as [|c s IH]; intros n H.
  - by rewrite match_rest_nil in H.
  - rewrite match_rest_cons in H.
    destruct (specifier_class c) eqn:Hc; [|done].
    destruct (match_here specifier_rest s) as [m|] eqn:Hm.
    + inversion H; subst n.
      destruct (IH m eq_refl) as (w & rest & -> & Hlen & Hw).
      exists (String c w), rest. split; [reflexivity|]. split; [simpl; by rewrite Hlen|].
      destruct w as [|d w]; [done|]. simpl in *. by rewrite Hc, Hw.
    + destruct (is_letter c) eqn:Hl; [|done]. inversion H; subst n.
      exists (String c ""), s. by rewrite str_app_cons.
Qed.

Lemma match_rest_longest (w rest : string) :
  specifier_tail w = true ->
  exists n, match_here specifier_rest (w +:+ rest) = Some n /\ (String.length w <= n)%nat.
Proof.
  induction w as [|c w IH]; [done|]. intros Hw.
  rewrite str_app_cons, match_rest_cons.
  destruct w as [|d w].
  - simpl in Hw. rewrite (is_letter_class _ Hw), Hw, str_app_nil_l.
    destruct (match_here specifier_rest rest) as [m|]; eexists; (split; [reflexivity|simpl; lia]).
  - change (specifier_tail (String c (String d w))) with
      (specifier_class c && specifier_tail (String d w)) in Hw.
    apply andb_true_iff in Hw as [Hc Hw]. rewrite Hc.
    destruct (IH Hw) as (m & -> & Hle).
    eexists; split; [reflexivity|]. simpl in *. lia.
Qed.

Lemma match_spec_sound (s : string) (n : nat) :
  match_here formatSpecifier s = Some n ->
  exists w rest, s = w +:+ rest /\ String.length w = n /\ is_specifier w = true.
Proof.
  destruct s as [|c s]; [done|]. rewrite match_spec_cons.
  destruct (Ascii.eqb "%"%char c) eqn:Hc; [|done].
  destruct (match_here specifier_rest s) as [m|] eqn:Hm; [|done].
  intros H; inversion H; subst n.
  destruct (match_rest_sound _ _ Hm) as (w & rest & -> & Hlen & Hw).
  exists (String c w), rest. split; [reflexivity|]. split; [simpl; by rewrite Hlen|].
  unfold is_specifier. by rewrite Hc, Hw.
Qed.

Lemma match_spec_longest (w rest : string) :
  is_specifier w = true ->
  exists n, match_here formatSpecifier (w +:+ rest) = Some n /\ (String.length w <= n)%nat.
Proof.
  destruct w as [|c w]; [done|]. unfold is_specifier. intros [Hc Hw]%andb_true_iff.
  rewrite str_app_cons, match_spec_cons, Hc.
  destruct (match_rest_longest w rest Hw) as (m & -> & Hle).
  eexists; split; [reflexivity|]. simpl. lia.
Qed.

Lemma match_spec_positive (s : string) : match_here formatSpecifier s <> Some 0%nat.
Proof.
  destruct s as [|c s]; [done|]. rewrite match_spec_cons.
  destruct (Ascii.eqb "%"%char c); [|done].
  by destruct (match_here specifier_rest s).
Qed.

(** ** The replacement scan *)

Lemma replace_scan_skip (re : Regexp) (repl w rest : string) :
  replace_scan re repl (String.length w) (w +:+ rest) = replace_scan re repl 0 rest.
Proof.
  induction w as [|c w IH]; [by destruct rest|].
  rewrite str_app_cons. simpl. apply IH.
Qed.

Lemma replace_match (re : Regexp) (repl w rest : string) :
  match_here re (w +:+ rest) = Some (String.length w) -> w <> "" ->
  regexp_ReplaceAllString re (w +:+ rest) repl
  = repl +:+ regexp_ReplaceAllString re rest repl.
Proof.
  destruct w as [|c w]; [done|]. intros Hm _.
  unfold regexp_ReplaceAllString. rewrite str_app_cons in *.
  simpl in *. rewrite Hm. by rewrite replace_scan_skip.
Qed.

Lemma replace_copy (re : Regexp) (repl : string) (c : ascii) (s : string) :
  match_here re (String c s) = None ->
  regexp_ReplaceAllString re (String c s) repl
  = String c (regexp_ReplaceAllString re s repl).
Proof. intros Hm. unfold regexp_ReplaceAllString. simpl. by rewrite Hm. Qed.

Lemma replace_scan_cons0 (re : Regexp) (repl : string) (c : ascii) (s : string) :
  replace_scan re repl 0 (String c s) =
    match match_here re (String c s) with
    | Some (S n) => repl +:+ replace_scan re repl n s
    | _ => String c (replace_scan re repl 0 s)
    end.
Proof. reflexivity. Qed.

Lemma replace_scan_consS (re : Regexp) (repl : string) (k : nat) (c : ascii) (s : string) :
  replace_scan re repl (S k) (String c s) = replace_scan re repl k s.
Proof. reflexivity. Qed.

(** A byte outside the class ends every specifier before it. *)
Lemma match_rest_sep (a : string) (c : ascii) (b : string) :
  specifier_class c = false ->
  match_here specifier_rest (a +:+ String c b) = match_here specifier_rest a.
Proof.
  intros Hc. induction a as [|x a IH].
  - by rewrite str_app_nil_l, match_rest_cons, Hc.
  - by rewrite str_app_cons, !match_rest_cons, IH.
Qed.

Lemma match_spec_sep (x : ascii) (a : string) (c : ascii) (b : string) :
  specifier_class c = false ->
  match_here formatSpecifier (String x (a +:+ String c b))
  = match_here formatSpecifier (String x a).
Proof.
  intros Hc. by rewrite !match_spec_cons, match_rest_sep.
Qed.

Lemma replace_scan_sep (repl a : string) (c : ascii) (b : string) (k : nat) :
  specifier_class c = false -> Ascii.eqb "%"%char c = false ->
  (k <= String.length a)%nat ->
  replace_scan formatSpecifier repl k (a +:+ String c b)
  = replace_scan formatSpecifier repl k a
    +:+ String c (replace_scan formatSpecifier repl 0 b).
Proof.
  intros Hc Hp. revert k. induction a as [|x a IH]; intros k Hk.
  - simpl in Hk. assert (k = 0%nat) as -> by lia.
    rewrite str_app_nil_l, replace_scan_cons0, match_spec_cons, Hp.
    reflexivity.
  - destruct k as [|k].
    + rewrite str_app_cons, !replace_scan_cons0, match_spec_sep by done.
      destruct (match_here formatSpecifier (String x a)) as [[|n]|] eqn:Hm.
      * rewrite str_app_cons. f_equal. apply IH. lia.
      * destruct (match_spec_sound _ _ Hm) as (w & rest & Hw & Hlen & _).
        apply (f_equal String.length) in Hw. rewrite str_length_app in Hw.
        simpl in Hw. rewrite IH by lia. by rewrite str_app_assoc.
      * rewrite str_app_cons. f_equal. apply IH. lia.
    + rewrite str_app_cons, !replace_scan_consS. apply IH. simpl in Hk. lia.
Qed.

Lemma normalize_sep (a : string) (c : ascii) (b : string) :
  specifier_class c = false -> Ascii.eqb "%"%char c = false ->
  normalize_specifiers (a +:+ String c b)
  = normalize_specifiers a +:+ String c (normalize_specifiers b).
Proof. intros. apply replace_scan_sep; [done..|lia]. Qed.

Lemma normalize_plain (c : ascii) (s : string) :
  Ascii.eqb "%"%char c = false ->
  normalize_specifiers (String c s) = String c (normalize_specifiers s).
Proof.
  intros Hp. apply replace_copy. by rewrite match_spec_cons, Hp.
Qed.

(** ** Trimming *)

Lemma TrimRight_keep (cutset a : string) (x : ascii) (b : string) :
  in_cutset cutset x = false ->
  strings_TrimRight (a +:+ String x b) cutset
  = a +:+ String x (strings_TrimRight b cutset).
Proof.
  intros Hx. induction a as [|y a IH].
  - rewrite !str_app_nil_l. simpl. rewrite Hx.
    by destruct (strings_TrimRight b cutset).
  - rewrite !str_app_cons. simpl. rewrite IH.
    by destruct a.
Qed.

Lemma TrimRight_drop (cutset a : string) (d : ascii) :
  in_cutset cutset d = true ->
  strings_TrimRight (a +:+ String d "") cutset = strings_TrimRight a cutset.
Proof.
  intros Hd. induction a as [|y a IH].
  - rewrite str_app_nil_l. simpl. by rewrite Hd.
  - rewrite str_app_cons. simpl. by rewrite IH.
Qed.

Lemma TrimLeft_keep (cutset a : string) (x : ascii) (b : string) :
  in_cutset cutset x = false ->
  strings_TrimLeft (a +:+ String x b) cutset
  = strings_TrimLeft a cutset +:+ String x b.
Proof.
  intros Hx. induction a as [|y a IH].
  - rewrite !str_app_nil_l. simpl. by rewrite Hx.
  - rewrite str_app_cons. simpl. destruct (in_cutset cutset y); [apply IH|].
    by rewrite str_app_cons.
Qed.

Lemma TrimRight_suffix (cutset s : string) :
  exists post, s = strings_TrimRight s cutset +:+ post /\ str_all (in_cutset cutset) post = true.
Proof.
  induction s as [|c s (post & Hs & Hall)].
  - by exists "".
  - simpl. destruct (strings_TrimRight s cutset) as [|d r] eqn:Hr.
    + destruct (in_cutset cutset c) eqn:Hc.
      * exists (String c s). split; [done|]. simpl. rewrite Hc.
        rewrite str_app_nil_l in Hs. by rewrite Hs.
      * exists post. rewrite str_app_nil_l in Hs. subst s.
        by rewrite str_app_cons, str_app_nil_l.
    + exists post. split; [|done]. by rewrite str_app_cons, <- Hs.
Qed.

Lemma TrimLeft_prefix (cutset s : string) :
  exists pre, s = pre +:+ strings_TrimLeft s cutset /\ str_all (in_cutset cutset) pre = true.
Proof.
  induction s as [|c s (pre & Hs & Hall)].
  - by exists "".
  - simpl. destruct (in_cutset cutset c) eqn:Hc.
    + exists (String c pre). rewrite str_app_cons, <- Hs. simpl. by rewrite Hc, Hall.
    + by exists "".
Qed.

Lemma TrimLeft_starts (cutset s : string) :
  starts_with (in_cutset cutset) (strings_TrimLeft s cutset) = false.
Proof.
  induction s as [|c s IH]; [done|]. simpl.
  destruct (in_cutset cutset c) eqn:Hc; [done|]. simpl. by rewrite Hc.
Qed.

Lemma TrimRight_ends (cutset s : string) :
  ends_with (in_cutset cutset) (strings_TrimRight s cutset) = false.
Proof.
  induction s as [|c s IH]; [done|]. simpl.
  destruct (strings_TrimRight s cutset) as [|d r] eqn:Hr.
  - destruct (in_cutset cutset c) eqn:Hc; [done|]. simpl. by rewrite Hc.
  - done.
Qed.

Lemma TrimLeft_ends (cutset s : string) :
  ends_with (in_cutset cutset) s = false ->
  ends_with (in_cutset cutset) (strings_TrimLeft s cutset) = false.
Proof.
  induction s as [|c s IH]; [done|]. intros H. simpl.
  destruct (in_cutset cutset c) eqn:Hc; [|done].
  destruct s as [|d s]; [done|]. by apply IH.
Qed.

Lemma TrimLeft_id (cutset s : string) :
  starts_with (in_cutset cutset) s = false -> strings_TrimLeft s cutset = s.
Proof. destruct s as [|c s]; [done|]. simpl. by intros ->. Qed.

Lemma TrimRight_id (cutset s : string) :
  ends_with (in_cutset cutset) s = false -> strings_TrimRight s cutset = s.
Proof.
  induction s as [|c s IH]; [done|]. intros H. simpl.
  destruct s as [|d s].
  - simpl in *. by rewrite H.
  - rewrite IH by done. done.
Qed.

Lemma Trim_cons (cutset : string) (d : ascii) (s : string) :
  in_cutset cutset d = true ->
  strings_Trim (String d s) cutset = strings_Trim s cutset.
Proof.
  intros Hd. unfold strings_Trim. simpl.
  destruct (strings_TrimRight s cutset) as [|c r]; simpl; by rewrite Hd.
Qed.

Lemma Trim_snoc (cutset : string) (d : ascii) (s : string) :
  in_cutset cutset d = true ->
  strings_Trim (s +:+ String d "") cutset = strings_Trim s cutset.
Proof. intros Hd. unfold strings_Trim. by rewrite TrimRight_drop. Qed.

(** ** No panics *)

Lemma index_lookup {A : Type} (l : list A) (i : nat) (x : A) :
  l !! i = Some x -> index l i = Ok x.
Proof. unfold index. by intros ->. Qed.

Lemma index_head {A : Type} (x : A) (l : list A) : index (x :: l) 0 = Ok x.
Proof. reflexivity. Qed.

Lemma select_msgArg_returns (construct : string) (args : list Expr) :
  args <> [] -> exists sel, select_msgArg construct args = Ok sel.
Proof.
  destruct args as [|a0 args]; [done|]. intros _. unfold select_msgArg.
  repeat case_match; rewrite ?index_head; simpl; eauto.
  destruct (is_string_lit a0); eauto.
Qed.

Lemma extractErrorMessage_returns (call : CallExpr) :
  exists r, extractErrorMessage call = Ok r.
Proof.
  unfold extractErrorMessage.
  destruct (String.eqb (getErrorConstructName call) ""); [eauto|].
  destruct (Args call) as [|a0 args] eqn:Hargs; [simpl; eauto|].
  destruct (select_msgArg_returns (getErrorConstructName call) (a0 :: args))
    as [sel ->]; [done|].
  simpl. destruct sel; [|eauto]. case_match; eauto.
Qed.

(** ** The registry *)

Lemma visit_record (errorMap : gmap string (list ErrorInfo)) (node : CallExpr) :
  visit errorMap node = Ok (record errorMap node).
Proof.
  unfold visit, record, occurrence.
  destruct (extractErrorMessage_returns node) as [[construct msg] ->]. simpl.
  by destruct (String.eqb construct "" || String.eqb msg "").
Qed.

Lemma Preorder_foldl (nodes : list CallExpr) (errorMap : gmap string (list ErrorInfo)) :
  Preorder nodes errorMap = Ok (foldl record errorMap nodes).
Proof.
  revert errorMap. induction nodes as [|node nodes IH]; intros errorMap; [done|].
  simpl. rewrite visit_record. simpl. apply IH.
Qed.

Lemma Preorder_registry (nodes : list CallExpr) :
  Preorder nodes ∅ = Ok (registry nodes).
Proof. apply Preorder_foldl. Qed.

Lemma occurrence_info (node : CallExpr) (key : string) (info : ErrorInfo) :
  occurrence node = Some (key, info) -> Pos info = node /\ key <> "".
Proof.
  unfold occurrence. destruct (extractErrorMessage node) as [[construct msg]|]; [|done].
  destruct (String.eqb construct "" || String.eqb msg "") eqn:He; [done|].
  intros [= <- <-]. split; [done|].
  apply orb_false_iff in He as [_ He]. by apply String.eqb_neq.
Qed.

Lemma lookup_foldl_record (nodes : list CallExpr)
    (errorMap : gmap string (list ErrorInfo)) (key : string) :
  foldl record errorMap nodes !! key =
    match group_of key nodes with
    | [] => errorMap !! key
    | g => Some (default [] (errorMap !! key) ++ g)
    end.
Proof.
  revert errorMap. induction nodes as [|node nodes IH]; intros errorMap; [done|].
  simpl. rewrite IH. unfold group_of, record. simpl.
  fold (group_of key nodes).
  destruct (occurrence node) as [[msg info]|] eqn:Ho; [|done].
  destruct (String.eqb_spec msg key) as [->|Hne].
  - rewrite lookup_insert_eq. simpl.
    destruct (group_of key nodes); [done|]. by rewrite <- app_assoc.
  - by rewrite lookup_insert_ne.
Qed.

Lemma lookup_registry (nodes : list CallExpr) (key : string) :
  registry nodes !! key =
    match group_of key nodes with
    | [] => None
    | g => Some g
    end.
Proof.
  unfold registry. rewrite lookup_foldl_record, lookup_empty.
  by destruct (group_of key nodes).
Qed.

Lemma registry_group (nodes : list CallExpr) (key : string) (locations : list ErrorInfo) :
  registry nodes !! key = Some locations <->
  locations = group_of key nodes /\ locations <> [].
Proof.
  rewrite lookup_registry. destruct (group_of key nodes) as [|i g].
  - split; [done|]. by intros [-> ?].
  - split; [by intros [= <-]|]. by intros [-> _].
Qed.

Lemma elem_of_group_of (key : string) (nodes : list CallExpr) (info : ErrorInfo) :
  info ∈ group_of key nodes <->
  exists node, node ∈ nodes /\ occurrence node = Some (key, info).
Proof.
  unfold group_of. rewrite list_elem_of_omap. split.
  - intros (node & Hin & H). exists node. split; [done|].
    destruct (occurrence node) as [[msg i]|]; [|done].
    destruct (String.eqb_spec msg key) as [->|]; [|done]. by inversion H.
  - intros (node & Hin & H). exists node. split; [done|].
    by rewrite H, String.eqb_refl.
Qed.

(** ** Reporting *)

Lemma for_each_returns {A B : Type} (body : A -> result (list B))
    (g : A -> list B) (l : list A) :
  (forall x, body x = Ok (g x)) -> for_each body l = Ok (concat (map g l)).
Proof.
  intros Hbody. induction l as [|x l IH]; [done|].
  simpl. by rewrite Hbody, IH.
Qed.

Lemma for_each_index {A B : Type} (f : A -> B) (l : list A) (a n : nat) :
  (a + n <= length l)%nat ->
  for_each (fun i => loc ← index l i; Ok [f loc]) (seq a n)
  = Ok (map f (take n (drop a l))).
Proof.
  revert a. induction n as [|n IH]; intros a Hlen; [done|].
  destruct (lookup_lt_is_Some_2 l a) as [x Hx]; [lia|].
  simpl. rewrite (index_lookup _ _ _ Hx). simpl.
  rewrite IH by lia. simpl.
  by rewrite (drop_S _ _ _ Hx).
Qed.

Section Reporting.

Variable Fset_Position : token_Pos -> Position.
Variable quote_escapes : string -> string.

Lemma report_entry_returns (entry : string * list ErrorInfo) :
  report_entry Fset_Position quote_escapes entry = Ok (group_diagnostics Fset_Position quote_escapes entry).
Proof.
  destruct entry as [msg [|firstLoc [|loc others]]]; [done..|].
  unfold report_entry, group_diagnostics.
  change (1 <? length (firstLoc :: loc :: others))%nat with true.
  cbv iota. rewrite index_head.
  change (length (firstLoc :: loc :: others) - 1)%nat with (S (length others)).
  pose proof (for_each_index (secondary_diagnostic Fset_Position quote_escapes msg firstLoc)
                (firstLoc :: loc :: others) 1 (S (length others))) as Hrest.
  unfold secondary_diagnostic, mbind, result_bind in *.
  rewrite Hrest by (simpl; lia).
  simpl. by rewrite firstn_all.
Qed.

Lemma run_returns
    (range : gmap string (list ErrorInfo) -> list (string * list ErrorInfo))
    (nodes : list CallExpr) :
  run Fset_Position quote_escapes range nodes
  = Ok (concat (map (group_diagnostics Fset_Position quote_escapes) (range (registry nodes)))).
Proof.
  unfold run. rewrite Preorder_registry. simpl.
  apply for_each_returns, report_entry_returns.
Qed.

Lemma group_diagnostics_nil (entry : string * list ErrorInfo) :
  group_diagnostics Fset_Position quote_escapes entry = [] <-> (length entry.2 <= 1)%nat.
Proof.
  destruct entry as [msg [|firstLoc [|loc others]]]; simpl; split; (done || lia).
Qed.

End Reporting.

Lemma omap_head {A B : Type} (f : A -> option B) (l : list A) (x : B) (r : list B) :
  omap f l = x :: r ->
  exists before y after,
    l = before ++ y :: after /\ omap f before = [] /\ f y = Some x /\ omap f after = r.
Proof.
  induction l as [|a l IH]; [done|]. simpl.
  destruct (f a) as [b|] eqn:Hfa.
  - intros [= -> <-]. by exists [], a, l.
  - intros (before & y & after & -> & Hb & Hy & Ha)%IH.
    exists (a :: before), y, after. simpl. by rewrite Hfa.
Qed.

Lemma group_of_head (key : string) (nodes : list CallExpr)
    (firstLoc : ErrorInfo) (others : list ErrorInfo) :
  group_of key nodes = firstLoc :: others ->
  exists before after,
    nodes = before ++ Pos firstLoc :: after
    /\ group_of key before = [] /\ group_of key after = others.
Proof.
  intros (before & y & after & -> & Hb & Hy & Ha)%omap_head.
  exists before, after. split; [|done].
  destruct (occurrence y) as [[msg info]|] eqn:Ho; [|done].
  destruct (String.eqb msg key); [|done]. injection Hy as ->.
  by destruct (occurrence_info _ _ _ Ho) as [-> _].
Qed.

Lemma str_app_nonempty (a b : string) : a <> "" -> String.eqb (a +:+ b) "" = false.
Proof. by destruct a. Qed.

Lemma Position_String_valid (pos : Position) :
  Filename pos <> "" -> (0 < Line pos)%Z -> Column pos <> 0%Z ->
  Position_String pos
  = Filename pos +:+ ":" +:+ pretty (Line pos) +:+ ":" +:+ pretty (Column pos).
Proof.
  intros Hf Hl Hc. unfold Position_String, Position_IsValid.
  apply Z.ltb_lt in Hl as ->. apply String.eqb_neq in Hf as Hf'. rewrite Hf'.
  apply Z.eqb_neq in Hc as ->. simpl negb. cbv iota.
  rewrite !str_app_assoc. by rewrite str_app_nonempty.
Qed.

Lemma messages_differ (quote_escapes : string -> string) (msg : string) (first : Position) :
  primary_message quote_escapes msg <> secondary_message quote_escapes msg first.
Proof.
  unfold primary_message, secondary_message. intros H.
  apply (inj (String.app _)) in H. apply (inj (String.app _)) in H.
  discriminate H.
Qed.

(** ** Quoting *)

Lemma plain_byte (c : ascii) :
  is_plain c = true -> is_ascii c = true /\ escaped_byte c = String c "".
Proof.
  destruct c as [[] [] [] [] [] [] [] []]; vm_compute; intros H;
    first [discriminate H | split; reflexivity].
Qed.

Lemma quote_scan_ascii (quote_escapes : string -> string) (s : string) :
  str_all is_ascii s = true -> quote_scan quote_escapes "" s = escaped_bytes s.
Proof.
  induction s as [|c s IH]; [done|]. simpl. intros [-> Hs]%andb_true_iff.
  by rewrite IH.
Qed.

Lemma escaped_bytes_plain (s : string) :
  str_all is_plain s = true -> str_all is_ascii s = true /\ escaped_bytes s = s.
Proof.
  induction s as [|c s IH]; [done|]. simpl. intros [Hc Hs]%andb_true_iff.
  destruct (plain_byte c Hc) as [-> ->]. destruct (IH Hs) as [-> ->]. done.
Qed.

(** An ASCII byte is rendered on its own, whatever comes before and after
    it. *)
Lemma quote_scan_byte (quote_escapes : string -> string)
    (a : string) (c : ascii) (b pending : string) :
  is_ascii c = true ->
  quote_scan quote_escapes pending (a +:+ String c b)
  = quote_scan quote_escapes pending a +:+ escaped_byte c
    +:+ quote_scan quote_escapes "" b.
Proof.
  intros Hc. revert pending. induction a as [|x a IH]; intros pending.
  - rewrite str_app_nil_l. simpl. by rewrite Hc.
  - rewrite str_app_cons. simpl. destruct (is_ascii x); [|apply IH].
    by rewrite IH, !str_app_assoc.
Qed.

Lemma fmt_q_ascii (quote_escapes : string -> string) (s : string) :
  str_all is_ascii s = true -> fmt_q quote_escapes s = dq (escaped_bytes s).
Proof. intros Hs. unfold fmt_q. by rewrite quote_scan_ascii. Qed.

Lemma fmt_q_plain (quote_escapes : string -> string) (s : string) :
  str_all is_plain s = true -> fmt_q quote_escapes s = dq s.
Proof.
  intros [Ha Hs]%escaped_bytes_plain. by rewrite fmt_q_ascii, Hs.
Qed.

Lemma Position_String_named (pos : Position) :
  Filename pos <> "" -> (0 < Line pos)%Z ->
  Position_String pos
  = Filename pos +:+ ":" +:+ pretty (Line pos)
    +:+ (if (Column pos =? 0)%Z then "" else ":" +:+ pretty (Column pos)).
Proof.
  intros Hf Hl. unfold Position_String, Position_IsValid.
  apply Z.ltb_lt in Hl as ->. apply String.eqb_neq in Hf as Hf'. rewrite Hf'.
  simpl negb. cbv iota.
  destruct (Column pos =? 0)%Z; simpl negb; cbv iota.
  - rewrite str_app_nil_r, !str_app_assoc. by rewrite str_app_nonempty.
  - rewrite !str_app_assoc. by rewrite str_app_nonempty.
Qed.

(** ** Grouping *)

Lemma group_diagnostics_positions
    (Fset_Position : token_Pos -> Position) (quote_escapes : string -> string)
    (key : string) (locations : list ErrorInfo) :
  map diag_Pos (group_diagnostics Fset_Position quote_escapes (key, locations))
  = map (fun info => CallExpr_Pos (Pos info))
        (if (1 <? length locations)%nat then locations else []).
Proof.
  destruct locations as [|firstLoc [|loc others]]; [done..|].
  unfold group_diagnostics. simpl. do 2 f_equal. by rewrite map_map.
Qed.

Lemma concat_map_filter {A B : Type} (P : A -> Prop) `{!forall x, Decision (P x)}
    (f : A -> list B) (l : list A) :
  (forall x, ~ P x -> f x = []) ->
  concat (map f (filter P l)) = concat (map f l).
Proof.
  intros Hf. induction l as [|x l IH]; [done|].
  rewrite filter_cons. destruct (decide (P x)) as [|Hx]; simpl.
  - by rewrite IH.
  - by rewrite (Hf x Hx), IH.
Qed.

Lemma NoDup_fst_filter {A B : Type} (P : A * B -> Prop) `{!forall x, Decision (P x)}
    (l : list (A * B)) :
  NoDup l.*1 -> NoDup (filter P l).*1.
Proof.
  induction l as [|x l IH]; [done|]. rewrite fmap_cons.
  intros [Hx Hl]%NoDup_cons. rewrite filter_cons.
  destruct (decide (P x)); [|by apply IH].
  rewrite fmap_cons. apply NoDup_cons. split; [|by apply IH].
  intros (y & Hy & [_ Hin]%list_elem_of_filter)%list_elem_of_fmap.
  apply Hx, list_elem_of_fmap. by exists y.
Qed.

Lemma range_NoDup
    (range : gmap string (list ErrorInfo) -> list (string * list ErrorInfo))
    (errorMap : gmap string (list ErrorInfo)) :
  map_range range -> NoDup (range errorMap).*1.
Proof.
  intros Hrange. rewrite (Hrange errorMap). apply NoDup_fst_map_to_list.
Qed.

Lemma range_lookup
    (range : gmap string (list ErrorInfo) -> list (string * list ErrorInfo))
    (errorMap : gmap string (list ErrorInfo)) (key : string)
    (locations : list ErrorInfo) :
  map_range range ->
  (key, locations) ∈ range errorMap <-> errorMap !! key = Some locations.
Proof.
  intros Hrange. rewrite (Hrange errorMap). apply elem_of_map_to_list.
Qed.

(** C1. What [run] reports is made of one group of diagnostics for each
    entry of the map that has at least two occurrences, and of nothing else:
    the map holds under every key the non-empty list of the occurrences of
    that key in traversal order; the reported groups are those entries, each
    once; the group of an entry holds one diagnostic for each of its
    occurrences, at the position of that occurrence; two recorded
    occurrences lie in one reported group exactly when their keys are equal
    and that key has at least two occurrences; and a key with a single
    occurrence has no group. *)
Theorem grouping_correct
    (Fset_Position : token_Pos -> Position) (quote_escapes : string -> string)
    (range : gmap string (list ErrorInfo) -> list (string * list ErrorInfo))
    (nodes : list CallExpr) :
  map_range range ->
  exists errorMap groups,
    Preorder nodes ∅ = Ok errorMap
    /\ (forall key locations,
          errorMap !! key = Some locations <->
          locations = group_of key nodes /\ locations <> [])
    /\ run Fset_Position quote_escapes range nodes
       = Ok (concat (map (group_diagnostics Fset_Position quote_escapes) groups))
    /\ NoDup groups.*1
    /\ (forall key locations,
          (key, locations) ∈ groups <->
          errorMap !! key = Some locations /\ (2 <= length locations)%nat)
    /\ (forall entry,
          entry ∈ groups ->
          (2 <= length (group_diagnostics Fset_Position quote_escapes entry))%nat
          /\ map diag_Pos (group_diagnostics Fset_Position quote_escapes entry)
             = map (fun info => CallExpr_Pos (Pos info)) entry.2)
    /\ (forall a b ka kb ia ib,
          a ∈ nodes -> b ∈ nodes ->
          occurrence a = Some (ka, ia) -> occurrence b = Some (kb, ib) ->
          (exists entry, entry ∈ groups /\ ia ∈ entry.2 /\ ib ∈ entry.2)
          <-> ka = kb /\ (2 <= length (group_of ka nodes))%nat)
    /\ (forall key,
          length (group_of key nodes) = 1%nat -> key ∉ groups.*1).
Proof.
  intros Hrange.
  set (groups := filter (fun entry : string * list ErrorInfo =>
                           (2 <= length entry.2)%nat) (range (registry nodes))).
  assert (forall key locations,
            (key, locations) ∈ groups <->
            registry nodes !! key = Some locations /\ (2 <= length locations)%nat)
    as Hgroups.
  { intros key locations. unfold groups.
    rewrite list_elem_of_filter, range_lookup by done. simpl. tauto. }
  exists (registry nodes), groups.
  split; [apply Preorder_registry|]. split; [apply registry_group|].
  split; [|split; [|split; [exact Hgroups|split; [|split]]]].
  - rewrite run_returns. f_equal. symmetry. apply concat_map_filter.
    intros entry Hlen. apply group_diagnostics_nil. lia.
  - by apply NoDup_fst_filter, range_NoDup.
  - intros [key locations] [_ Hlen]%Hgroups. simpl in Hlen.
    rewrite group_diagnostics_positions.
    assert ((1 <? length locations)%nat = true) as Hlt by (apply Nat.ltb_lt; lia).
    split.
    + rewrite <- (length_map diag_Pos), group_diagnostics_positions, Hlt.
      by rewrite length_map.
    + by rewrite Hlt.
  - intros a b ka kb ia ib Ha Hb Hoa Hob. split.
    + intros ([key locations] & [Hin Hlen]%Hgroups & Hia & Hib). simpl in Hia, Hib.
      apply registry_group in Hin as [-> _].
      apply elem_of_group_of in Hia as (a' & _ & Hoa').
      apply elem_of_group_of in Hib as (b' & _ & Hob').
      destruct (occurrence_info _ _ _ Hoa) as [Hpa _].
      destruct (occurrence_info _ _ _ Hoa') as [Hpa' _].
      destruct (occurrence_info _ _ _ Hob) as [Hpb _].
      destruct (occurrence_info _ _ _ Hob') as [Hpb' _].
      assert (a' = a) as -> by congruence. assert (b' = b) as -> by congruence.
      assert (key = ka) as -> by congruence. split; [congruence|done].
    + intros [<- Hlen]. exists (ka, group_of ka nodes).
      split; [|split].
      * apply Hgroups. split; [|done]. apply registry_group. split; [done|].
        intros Hnil. rewrite Hnil in Hlen. simpl in Hlen. lia.
      * apply elem_of_group_of. by exists a.
      * apply elem_of_group_of. by exists b.
  - intros key Hone ([key' locations] & -> & [Hin Hlen]%Hgroups)%list_elem_of_fmap.
    simpl in Hone. apply registry_group in Hin as [-> _]. lia.
Qed.

Lemma map_to_list_range : map_range map_to_list.
Proof. by intros m. Qed.

Lemma grouping_correct_witness :
  let first := mkErrorInfo (errors_New 100 [str_lit 111 (dq "connection failed")])
                 "errors.New" in
  let second := mkErrorInfo (errors_New 300 [str_lit 311 (dq "connection failed")])
                  "errors.New" in
  map_range map_to_list
  /\ exists groups,
       run test_Fset plain_q map_to_list test_nodes
       = Ok (concat (map (group_diagnostics test_Fset plain_q) groups))
       /\ ("connection failed", [first; second]) ∈ groups
       /\ "error one" ∉ groups.*1.
Proof.
  intros first second. split; [apply map_to_list_range|].
  destruct (grouping_correct test_Fset plain_q map_to_list test_nodes
              map_to_list_range)
    as (errorMap & groups & Hmap & _ & Hrun & _ & Hgroups & _ & _ & Hone).
  rewrite Preorder_registry in Hmap. injection Hmap as <-.
  exists groups. split; [exact Hrun|]. split.
  - apply Hgroups. split; [reflexivity|]. simpl. lia.
  - apply Hone. reflexivity.
Defined.

(** C2, as stated, fails on the form of the messages.  The key is printed
    with the verb [%q], which escapes it: the key of the literal "a\nb" holds
    a backslash, and the messages hold two.  The position is printed with
    [%v], which leaves the column out when the file set gives none, as it
    does after a line directive without a column. *)
Lemma key_printed_escaped :
  let key := "a" +:+ escaped_LF +:+ "b" in
  let nodes := [ errors_New 100 [str_lit 111 (dq key)];
                 errors_New 200 [str_lit 211 (dq key)] ] in
  extractStringLiteral (str_lit 111 (dq key)) = key
  /\ (forall quote_escapes,
        run test_Fset quote_escapes map_to_list nodes
        = Ok [ mkDiagnostic 100
                 ("duplicate error message "
                  +:+ dq ("a" +:+ String backslash escaped_LF +:+ "b")
                  +:+ " used in multiple locations");
               mkDiagnostic 200
                 ("duplicate error message "
                  +:+ dq ("a" +:+ String backslash escaped_LF +:+ "b")
                  +:+ " also used at a.go:2:1") ])
  /\ "duplicate error message "
     +:+ dq ("a" +:+ String backslash escaped_LF +:+ "b")
     +:+ " used in multiple locations"
     <> "duplicate error message " +:+ dq key +:+ " used in multiple locations"
  /\ (forall quote_escapes,
        run (fun p => mkPosition "a.go" p 7 0) quote_escapes map_to_list
          [ errors_New 100 [str_lit 111 (dq "connection failed")];
            errors_New 300 [str_lit 311 (dq "connection failed")] ]
        = Ok [ mkDiagnostic 100
                 ("duplicate error message " +:+ dq "connection failed"
                  +:+ " used in multiple locations");
               mkDiagnostic 300
                 ("duplicate error message " +:+ dq "connection failed"
                  +:+ " also used at a.go:7") ]).
Proof.
  intros key nodes. split; [reflexivity|]. split; [intros; reflexivity|].
  split; [vm_compute; discriminate|]. intros; reflexivity.
Qed.

(** C2, amended. A reported group consists of the occurrences of its key in
    traversal order.  In what [run] reports, the group is one block between
    the blocks of the entries enumerated before and after it, none of which
    has its key: the earliest occurrence gets the primary diagnostic at its
    position, and each of the others gets, at its own position, the
    secondary diagnostic that names the position of the earliest one; the
    two messages are distinct.  The key appears as [%q] prints it: between
    double quotes, as it is when it is made of printable ASCII bytes other
    than the quote and the backslash, and with every ASCII byte rendered by
    [escaped_byte], wherever it stands in the key.  The position appears
    as [%v] prints it: for a valid position with a file name, as
    file:line:column, and as file:line when it has no column. *)
Theorem first_occurrence_anchoring
    (Fset_Position : token_Pos -> Position) (quote_escapes : string -> string)
    (range : gmap string (list ErrorInfo) -> list (string * list ErrorInfo))
    (nodes : list CallExpr) (errorMap : gmap string (list ErrorInfo))
    (key : string) (locations : list ErrorInfo) :
  map_range range ->
  Preorder nodes ∅ = Ok errorMap ->
  errorMap !! key = Some locations ->
  (1 < length locations)%nat ->
  exists firstLoc others before after earlier later,
    locations = firstLoc :: others
    /\ nodes = before ++ Pos firstLoc :: after
    /\ group_of key before = [] /\ group_of key after = others
    /\ range errorMap = earlier ++ (key, locations) :: later
    /\ (key ∉ earlier.*1) /\ (key ∉ later.*1)
    /\ run Fset_Position quote_escapes range nodes
       = Ok (concat (map (group_diagnostics Fset_Position quote_escapes) earlier)
             ++ (mkDiagnostic (CallExpr_Pos (Pos firstLoc))
                   ("duplicate error message " +:+ fmt_q quote_escapes key
                    +:+ " used in multiple locations")
                 :: map (fun loc =>
                           mkDiagnostic (CallExpr_Pos (Pos loc))
                             ("duplicate error message " +:+ fmt_q quote_escapes key
                              +:+ " also used at "
                              +:+ Position_String
                                    (Fset_Position (CallExpr_Pos (Pos firstLoc)))))
                        others)
             ++ concat (map (group_diagnostics Fset_Position quote_escapes) later))
    /\ report_entry Fset_Position quote_escapes (key, locations)
       = Ok (mkDiagnostic (CallExpr_Pos (Pos firstLoc))
               ("duplicate error message " +:+ fmt_q quote_escapes key
                +:+ " used in multiple locations")
             :: map (fun loc =>
                       mkDiagnostic (CallExpr_Pos (Pos loc))
                         ("duplicate error message " +:+ fmt_q quote_escapes key
                          +:+ " also used at "
                          +:+ Position_String
                                (Fset_Position (CallExpr_Pos (Pos firstLoc)))))
                    others)
    /\ (str_all is_plain key = true -> fmt_q quote_escapes key = dq key)
    /\ (str_all is_ascii key = true ->
        fmt_q quote_escapes key = dq (escaped_bytes key))
    /\ (forall a c b,
          key = a +:+ String c b -> is_ascii c = true ->
          fmt_q quote_escapes key
          = dq (quote_scan quote_escapes "" a +:+ escaped_byte c
                +:+ quote_scan quote_escapes "" b))
    /\ (forall first : Position,
          primary_message quote_escapes key <> secondary_message quote_escapes key first)
    /\ (forall pos : Position,
          Filename pos <> "" -> (0 < Line pos)%Z ->
          Position_String pos
          = Filename pos +:+ ":" +:+ pretty (Line pos)
            +:+ (if (Column pos =? 0)%Z then "" else ":" +:+ pretty (Column pos))).
Proof.
  intros Hrange Hmap Hkey Hlen.
  rewrite Preorder_registry in Hmap. injection Hmap as <-.
  pose proof Hkey as [Hg _]%registry_group.
  destruct locations as [|firstLoc [|loc others]]; simpl in Hlen; [lia..|].
  symmetry in Hg. destruct (group_of_head _ _ _ _ Hg) as (before & after & Hn & Hb & Ha).
  assert ((key, firstLoc :: loc :: others) ∈ range (registry nodes)) as Hin
    by (by apply range_lookup).
  apply list_elem_of_split in Hin as (earlier & later & Hsplit).
  pose proof (range_NoDup range (registry nodes) Hrange) as Hnd.
  rewrite Hsplit, fmap_app, fmap_cons in Hnd.
  apply NoDup_app in Hnd as (_ & Hearlier & [Hlater _]%NoDup_cons).
  exists firstLoc, (loc :: others), before, after, earlier, later.
  split; [done|]. split; [done|]. split; [done|]. split; [done|].
  split; [done|]. split.
  { intros Hk. apply (Hearlier key Hk). simpl. apply list_elem_of_here. }
  split; [exact Hlater|]. split.
  { rewrite run_returns, Hsplit, map_app, concat_app. reflexivity. }
  split; [by rewrite report_entry_returns|].
  split; [apply fmt_q_plain|]. split; [apply fmt_q_ascii|]. split.
  { intros a c b -> Hc. unfold fmt_q. by rewrite quote_scan_byte. }
  split; [apply messages_differ|apply Position_String_named].
Qed.

Lemma first_occurrence_anchoring_witness :
  let first := mkErrorInfo (errors_New 100 [str_lit 111 (dq "connection failed")])
                 "errors.New" in
  let second := mkErrorInfo (errors_New 300 [str_lit 311 (dq "connection failed")])
                  "errors.New" in
  map_range map_to_list
  /\ Preorder test_nodes ∅ = Ok (registry test_nodes)
  /\ registry test_nodes !! "connection failed" = Some [first; second]
  /\ exists earlier later,
       run test_Fset plain_q map_to_list test_nodes
       = Ok (concat (map (group_diagnostics test_Fset plain_q) earlier)
             ++ [ mkDiagnostic 100
                    ("duplicate error message " +:+ dq "connection failed"
                     +:+ " used in multiple locations");
                  mkDiagnostic 300
                    ("duplicate error message " +:+ dq "connection failed"
                     +:+ " also used at a.go:2:1") ]
             ++ concat (map (group_diagnostics test_Fset plain_q) later)).
Proof.
  intros first second. split; [apply map_to_list_range|].
  split; [apply Preorder_registry|]. split; [reflexivity|].
  destruct (first_occurrence_anchoring test_Fset plain_q map_to_list test_nodes
              (registry test_nodes) "connection failed" [first; second])
    as (firstLoc & others & _ & _ & earlier & later & Hl & _ & _ & _ & _ & _ & _
        & Hrun & _);
    [apply map_to_list_range | apply Preorder_registry | reflexivity
    | simpl; lia |].
  injection Hl as <- <-. exists earlier, later. exact Hrun.
Defined.

(** ** Order of the report *)

(** C3, as stated, fails: two enumerations of the same map, both permitted
    for a [range] loop, report the groups of [test_nodes] in different
    orders. *)
Lemma report_order_varies :
  exists range1 range2,
    map_range range1 /\ map_range range2
    /\ run test_Fset plain_q range1 test_nodes
       <> run test_Fset plain_q range2 test_nodes.
Proof.
  exists map_to_list, (fun m => reverse (map_to_list m)).
  split; [apply map_to_list_range|]. split.
  - intros m. apply reverse_Permutation.
  - vm_compute. discriminate.
Qed.

(** C3, amended. Two runs on the same input report the same groups, each
    group being the diagnostics of one key in a fixed order (the primary one,
    then the others in traversal order); the runs agree up to the order in
    which the groups follow one another, and agree entirely when the map is
    enumerated in the same order. *)
Theorem report_order_up_to_groups
    (Fset_Position : token_Pos -> Position) (quote_escapes : string -> string)
    (range1 range2 : gmap string (list ErrorInfo) -> list (string * list ErrorInfo))
    (nodes : list CallExpr) :
  map_range range1 -> map_range range2 ->
  exists groups1 groups2,
    run Fset_Position quote_escapes range1 nodes = Ok (concat groups1)
    /\ run Fset_Position quote_escapes range2 nodes = Ok (concat groups2)
    /\ groups1 ≡ₚ groups2
    /\ Forall (fun g => exists key,
                 g = group_diagnostics Fset_Position quote_escapes (key, group_of key nodes))
              groups1
    /\ (range1 (registry nodes) = range2 (registry nodes) -> groups1 = groups2).
Proof.
  intros H1 H2.
  exists (map (group_diagnostics Fset_Position quote_escapes) (range1 (registry nodes))),
         (map (group_diagnostics Fset_Position quote_escapes) (range2 (registry nodes))).
  split; [apply run_returns|]. split; [apply run_returns|]. split; [|split].
  - apply Permutation_map. by rewrite (H1 _), (H2 _).
  - apply Forall_forall. intros g [[key locations] [-> Hin]]%list_elem_of_fmap.
    rewrite (H1 _) in Hin.
    apply elem_of_map_to_list, registry_group in Hin as [-> _]. by exists key.
  - by intros ->.
Qed.

Lemma report_order_up_to_groups_witness :
  map_range map_to_list
  /\ map_range (fun m => reverse (map_to_list m))
  /\ exists groups1 groups2,
       run test_Fset plain_q map_to_list test_nodes = Ok (concat groups1)
       /\ run test_Fset plain_q (fun m => reverse (map_to_list m)) test_nodes
          = Ok (concat groups2)
       /\ groups1 ≡ₚ groups2.
Proof.
  assert (map_range (fun m => reverse (map_to_list m))) as Hrev
    by (intros m; apply reverse_Permutation).
  split; [apply map_to_list_range|]. split; [exact Hrev|].
  destruct (report_order_up_to_groups test_Fset plain_q map_to_list
              (fun m => reverse (map_to_list m)) test_nodes
              map_to_list_range Hrev)
    as (groups1 & groups2 & Hr1 & Hr2 & Hperm & _).
  exists groups1, groups2. split; [exact Hr1|]. split; [exact Hr2|exact Hperm].
Defined.

(** ** Format verbs *)


(** ** Format specifiers *)

(** C5, as stated, fails: the class of the pattern also contains the
    letters, so the letters that follow a verb are swallowed with it. *)
Lemma narrow_class_refuted :
  extractStringLiteral (str_lit 0 (dq "took %dms")) = "took %x"
  /\ regexp_ReplaceAllString spec_formatSpecifier "took %dms" "%x" = "took %xms"
  /\ regexp_ReplaceAllString formatSpecifier "took %dms" "%x"
     <> regexp_ReplaceAllString spec_formatSpecifier "took %dms" "%x".
Proof. split; [reflexivity|]. split; [reflexivity|]. vm_compute. discriminate. Qed.

(** C5, amended. A specifier is a percent sign, zero or more bytes among the
    letters, the digits and [.], [-], [+], [#], and a letter.  Reading the
    text from the left, the normalizer replaces the longest specifier that
    starts at the current byte by the placeholder and goes on after it, and
    copies a byte at which no specifier starts; every text is in one of these
    three cases. *)
Theorem normalizer_scan :
  normalize_specifiers "" = ""
  /\ (forall w rest,
        is_specifier w = true ->
        (forall w' rest',
            w +:+ rest = w' +:+ rest' -> is_specifier w' = true ->
            (String.length w' <= String.length w)%nat) ->
        normalize_specifiers (w +:+ rest) = "%x" +:+ normalize_specifiers rest)
  /\ (forall c rest,
        (forall w r, String c rest = w +:+ r -> is_specifier w = false) ->
        normalize_specifiers (String c rest) = String c (normalize_specifiers rest))
  /\ (forall s,
        s = ""
        \/ (exists w rest,
              s = w +:+ rest /\ is_specifier w = true
              /\ forall w' rest',
                   s = w' +:+ rest' -> is_specifier w' = true ->
                   (String.length w' <= String.length w)%nat)
        \/ (exists c rest,
              s = String c rest
              /\ forall w r, s = w +:+ r -> is_specifier w = false)).
Proof.
  split; [reflexivity|]. split; [|split].
  - intros w rest Hw Hmax.
    destruct (match_spec_longest w rest Hw) as (n & Hm & Hle).
    destruct (match_spec_sound _ _ Hm) as (w2 & rest2 & Heq & Hlen & Hw2).
    specialize (Hmax w2 rest2 Heq Hw2).
    assert (n = String.length w) as -> by lia.
    apply replace_match; [done|]. by destruct w.
  - intros c rest Hno. apply replace_copy.
    destruct (match_here formatSpecifier (String c rest)) as [n|] eqn:Hm; [|done].
    destruct (match_spec_sound _ _ Hm) as (w & r & Heq & _ & Hw).
    by rewrite (Hno w r Heq) in Hw.
  - intros s. destruct s as [|c s]; [by left|]. right.
    destruct (match_here formatSpecifier (String c s)) as [n|] eqn:Hm.
    + left. destruct (match_spec_sound _ _ Hm) as (w & r & Heq & Hlen & Hw).
      exists w, r. split; [done|]. split; [done|].
      intros w' rest' Heq' Hw'.
      destruct (match_spec_longest w' rest' Hw') as (n' & Hm' & Hle).
      rewrite <- Heq', Hm in Hm'. injection Hm' as <-. lia.
    + right. exists c, s. split; [done|]. intros w r Heq.
      destruct (is_specifier w) eqn:Hw; [|done].
      destruct (match_spec_longest w r Hw) as (n' & Hm' & _).
      by rewrite <- Heq, Hm in Hm'.
Qed.

Lemma normalizer_scan_witness :
  is_specifier "%d" = true
  /\ normalize_specifiers ("%d" +:+ " ms") = "%x" +:+ normalize_specifiers " ms".
Proof.
  split; [reflexivity|].
  apply (proj1 (proj2 normalizer_scan)); [reflexivity|].
  intros w' rest' Heq Hw'.
  destruct w' as [|c1 [|c2 [|c3 w']]]; simpl; [lia..|].
  rewrite !str_app_cons in Heq. injection Heq as <- <- <- _.
  destruct w'; discriminate Hw'.
Defined.

(** ** Quoting delimiters *)

(** C6, as stated, fails: quote bytes at the ends of the content go with the
    delimiters.  The raw literal whose content is the three bytes [dq "a"]
    is reduced to the single byte a, as is the interpreted literal [dq "a"];
    an escaped quote at the end of the content loses its quote and keeps
    its backslash. *)
Lemma content_quotes_stripped :
  strings_Trim (bq (dq "a")) quote_cutset = "a"
  /\ strings_Trim (bq (dq "a")) quote_cutset <> dq "a"
  /\ extractStringLiteral (str_lit 0 (bq (dq "a")))
     = extractStringLiteral (str_lit 0 (dq "a"))
  /\ strings_Trim (dq ("say " +:+ escaped_quote +:+ "hi" +:+ escaped_quote))
       quote_cutset
     = "say " +:+ escaped_quote +:+ "hi" +:+ String backslash "".
Proof.
  split; [reflexivity|]. split; [vm_compute; discriminate|].
  split; reflexivity.
Qed.

(** C6, amended. For both styles of literal the first step yields the
    content without its leading and trailing quote and backquote bytes: what
    is removed around the result is made of such bytes only, the result
    neither starts nor ends with one, and a content that neither starts nor
    ends with one is obtained unchanged, whatever it has inside. *)
Theorem delimiters_trimmed (content : string) :
  strings_Trim (dq content) quote_cutset = strings_Trim content quote_cutset
  /\ strings_Trim (bq content) quote_cutset = strings_Trim content quote_cutset
  /\ (exists pre post,
        content = pre +:+ strings_Trim content quote_cutset +:+ post
        /\ str_all is_quote pre = true /\ str_all is_quote post = true)
  /\ starts_with is_quote (strings_Trim content quote_cutset) = false
  /\ ends_with is_quote (strings_Trim content quote_cutset) = false
  /\ (starts_with is_quote content = false ->
      ends_with is_quote content = false ->
      strings_Trim content quote_cutset = content).
Proof.
  split; [|split; [|split; [|split; [|split]]]].
  - unfold dq. rewrite Trim_cons by reflexivity. by apply Trim_snoc.
  - unfold bq. rewrite Trim_cons by reflexivity. by apply Trim_snoc.
  - destruct (TrimRight_suffix quote_cutset content) as (post & Hpost & Hall).
    destruct (TrimLeft_prefix quote_cutset (strings_TrimRight content quote_cutset))
      as (pre & Hpre & Hall').
    exists pre, post. split; [|done]. unfold strings_Trim.
    by rewrite <- str_app_assoc, <- Hpre.
  - apply TrimLeft_starts.
  - apply TrimLeft_ends, TrimRight_ends.
  - unfold is_quote, strings_Trim. intros Hs He.
    rewrite (TrimRight_id _ _ He). by apply TrimLeft_id.
Qed.

Lemma delimiters_trimmed_witness :
  starts_with is_quote ("it's " +:+ dq "fine" +:+ " now") = false
  /\ ends_with is_quote ("it's " +:+ dq "fine" +:+ " now") = false
  /\ strings_Trim ("it's " +:+ dq "fine" +:+ " now") quote_cutset
     = "it's " +:+ dq "fine" +:+ " now".
Proof.
  split; [reflexivity|]. split; [reflexivity|].
  apply (delimiters_trimmed ("it's " +:+ dq "fine" +:+ " now")); reflexivity.
Defined.

(** ** Message arguments *)

(** C7. The logging table accepts a package name that contains log, but the
    switch then sends every construct other than the six it lists to the
    scan of all arguments: for [mylog.Printf(format, "later")] the literal
    in second position becomes the message, whereas the same call on [log]
    is ignored. *)
Theorem logging_later_literal_used :
  is_log_package "mylog" = true /\ is_log_func "Printf" = true
  /\ getErrorConstructName (qualified 100 "mylog" "Printf" later_args) = "mylog"
  /\ extractErrorMessage (qualified 100 "mylog" "Printf" later_args)
     = Ok ("mylog", "later")
  /\ extractErrorMessage (qualified 100 "log" "Printf" later_args) = Ok ("", "").
Proof. repeat split; reflexivity. Qed.

(** C9. The same call adds an occurrence to the map although the argument
    in message position is not a string literal. *)
Theorem logging_non_literal_recorded :
  is_string_lit (EIdent (mkIdent 113 "format")) = false
  /\ Preorder [qualified 100 "mylog" "Printf" later_args] ∅
     = Ok {[ "later" :=
               [mkErrorInfo (qualified 100 "mylog" "Printf" later_args) "mylog"] ]}.
Proof. split; reflexivity. Qed.

(** For the constructs that the switch lists, only the first argument is
    looked at. *)
Lemma first_arg_only (call : CallExpr) (a0 : Expr) (args : list Expr) :
  existsb (String.eqb (getErrorConstructName call))
    ("fmt.Errorf" :: first_arg_constructs) = true ->
  Args call = a0 :: args ->
  extractErrorMessage call
  = Ok (if String.eqb (extractStringLiteral a0) "" then ("", "")
        else (getErrorConstructName call, extractStringLiteral a0)).
Proof.
  intros Hc Hargs. unfold extractErrorMessage. rewrite Hargs.
  destruct (String.eqb_spec (getErrorConstructName call) "") as [He|_].
  { rewrite He in Hc. discriminate Hc. }
  change (length (a0 :: args) =? 0)%nat with false. cbv iota.
  assert (select_msgArg (getErrorConstructName call) (a0 :: args) = Ok (Some a0)) as ->.
  { unfold select_msgArg.
    destruct (String.eqb_spec (getErrorConstructName call) "errors.New") as [He|_].
    { rewrite He in Hc. discriminate Hc. }
    change (String.eqb (getErrorConstructName call) "fmt.Errorf"
            || existsb (String.eqb (getErrorConstructName call)) first_arg_constructs
            = true) in Hc.
    apply orb_true_iff in Hc as [->| ->]; [done|].
    by destruct (String.eqb (getErrorConstructName call) "fmt.Errorf"). }
  simpl. by destruct (String.eqb (extractStringLiteral a0) "").
Qed.

(** [errors.New] is looked at only when it has exactly one argument. *)
Lemma errors_New_sole_arg (call : CallExpr) (a0 : Expr) (args : list Expr) :
  getErrorConstructName call = "errors.New" ->
  Args call = a0 :: args ->
  extractErrorMessage call
  = Ok match args with
       | [] =>
           if String.eqb (extractStringLiteral a0) "" then ("", "")
           else ("errors.New", extractStringLiteral a0)
       | _ :: _ => ("", "")
       end.
Proof.
  intros Hc Hargs. unfold extractErrorMessage. rewrite Hc, Hargs.
  destruct args as [|a1 args]; [|reflexivity].
  simpl. by destruct (String.eqb (extractStringLiteral a0) "").
Qed.

Lemma not_string_lit_empty (e : Expr) :
  is_string_lit e = false -> extractStringLiteral e = "".
Proof. destruct e; simpl; try done. by intros ->. Qed.

(** A call that matches no construct, and a call whose message is empty,
    add nothing to the map. *)
Lemma ignored_calls (call : CallExpr) (errorMap : gmap string (list ErrorInfo)) :
  (getErrorConstructName call = "" -> visit errorMap call = Ok errorMap)
  /\ (forall construct,
        extractErrorMessage call = Ok (construct, "") ->
        visit errorMap call = Ok errorMap).
Proof.
  split.
  - intros He. unfold visit, extractErrorMessage. by rewrite He.
  - intros construct He. unfold visit. rewrite He. simpl.
    by rewrite orb_true_r.
Qed.

(** C8, as stated, fails: the naming test is only made when the receiver is
    a bare identifier.  The call [factory().NewError("bad input")] is not
    recognized. *)
Lemma chained_receiver_not_recognized :
  let call :=
    mkCall (ESelectorExpr (ECallExpr (EIdent (mkIdent 100 "factory")) [])
              (mkIdent 110 "NewError"))
           [str_lit 119 (dq "bad input")] in
  is_constructor_method "NewError" = true
  /\ is_chained_log_method "NewError" = false
  /\ getErrorConstructName call = ""
  /\ extractErrorMessage call = Ok ("", "").
Proof. repeat split; reflexivity. Qed.

Lemma chained_method_switch_case (sel : string) :
  existsb (String.eqb sel) switch_cases = false ->
  is_chained_log_method sel = false.
Proof.
  intros Hsw. destruct (is_chained_log_method sel) eqn:Hm; [|done].
  unfold is_chained_log_method in Hm.
  repeat (apply orb_true_iff in Hm as [Hm|Hm]);
    apply String.eqb_eq in Hm; subst sel; discriminate Hsw.
Qed.

(** C8, amended. Take a call of shape receiver.Method that none of the rules
    placed before the naming test matches, and whose method name passes the
    naming test and is not one of the constructs with a case of their own in
    the switch.  When the receiver is a bare identifier the call is
    recognized under its method name; its message is taken from the first
    argument if that is a string literal, else from the first string literal
    among the arguments, and the call is ignored if there is none or if the
    message is empty.  When the receiver is anything else (the result of a
    call, a selector, any other expression) the call is not recognized, and
    it is ignored whatever its arguments. *)
Theorem selector_fallback (X : Expr) (Sel : Ident) (args : list Expr) :
  matched_earlier X Sel = false ->
  is_constructor_method (Name Sel) = true ->
  existsb (String.eqb (Name Sel)) switch_cases = false ->
  getErrorConstructName (mkCall (ESelectorExpr X Sel) args)
  = (if is_Ident X then Name Sel else "")
  /\ extractErrorMessage (mkCall (ESelectorExpr X Sel) args)
     = Ok (if is_Ident X then
             match fallback_msgArg args with
             | Some lit =>
                 if String.eqb (extractStringLiteral lit) "" then ("", "")
                 else (Name Sel, extractStringLiteral lit)
             | None => ("", "")
             end
           else ("", "")).
Proof.
  intros Hearlier H4 Hsw.
  assert (getErrorConstructName (mkCall (ESelectorExpr X Sel) args)
          = if is_Ident X then Name Sel else "") as Hname.
  { unfold getErrorConstructName, selector_construct. simpl.
    rewrite (chained_method_switch_case _ Hsw), andb_false_r.
    destruct X as [pkgIdent| | | |]; try done. simpl in *.
    apply orb_false_iff in Hearlier as [Hearlier H3].
    apply orb_false_iff in Hearlier as [H2a H2b].
    by rewrite H2a, H2b, H3, H4. }
  split; [done|]. unfold extractErrorMessage. rewrite Hname.
  destruct (is_Ident X); [|done]. simpl Args.
  destruct (String.eqb_spec (Name Sel) "") as [He|_].
  { rewrite He in H4. discriminate H4. }
  destruct args as [|a0 args]; [done|].
  change (length (a0 :: args) =? 0)%nat with false. cbv iota.
  unfold select_msgArg, switch_cases in *.
  simpl in Hsw. apply orb_false_iff in Hsw as [-> Hsw].
  apply orb_false_iff in Hsw as [-> Hsw].
  change (existsb (String.eqb (Name Sel)) first_arg_constructs) with
    (String.eqb (Name Sel) "log" || (String.eqb (Name Sel) "logger"
     || (String.eqb (Name Sel) "Log" || (String.eqb (Name Sel) "Logf"
     || (String.eqb (Name Sel) "LogError"
     || (String.eqb (Name Sel) "LogErrorf" || false)))))).
  rewrite Hsw. change (0 <? length (a0 :: args))%nat with true. cbv iota.
  rewrite index_head. unfold fallback_msgArg. simpl.
  destruct (is_string_lit a0) eqn:Ha0; simpl.
  - by destruct (String.eqb (extractStringLiteral a0) "").
  - destruct (find is_string_lit args) as [lit|]; [|done].
    by destruct (String.eqb (extractStringLiteral lit) "").
Qed.

Lemma selector_fallback_witness :
  matched_earlier (EIdent (mkIdent 100 "store")) (mkIdent 106 "NewError") = false
  /\ matched_earlier
       (ESelectorExpr (EIdent (mkIdent 100 "app")) (mkIdent 104 "store"))
       (mkIdent 110 "NewError") = false
  /\ is_constructor_method "NewError" = true
  /\ existsb (String.eqb "NewError") switch_cases = false
  /\ extractErrorMessage
       (mkCall (ESelectorExpr (EIdent (mkIdent 100 "store")) (mkIdent 106 "NewError"))
               [EIdent (mkIdent 115 "ctx"); str_lit 120 (dq "bad input")])
     = Ok ("NewError", "bad input")
  /\ extractErrorMessage
       (mkCall (ESelectorExpr
                  (ESelectorExpr (EIdent (mkIdent 100 "app")) (mkIdent 104 "store"))
                  (mkIdent 110 "NewError"))
               [str_lit 120 (dq "bad input")])
     = Ok ("", "").
Proof.
  split; [reflexivity|]. split; [reflexivity|]. split; [reflexivity|].
  split; [reflexivity|]. split.
  - apply (selector_fallback (EIdent (mkIdent 100 "store")) (mkIdent 106 "NewError")
             [EIdent (mkIdent 115 "ctx"); str_lit 120 (dq "bad input")]);
      reflexivity.
  - apply (selector_fallback
             (ESelectorExpr (EIdent (mkIdent 100 "app")) (mkIdent 104 "store"))
             (mkIdent 110 "NewError") [str_lit 120 (dq "bad input")]);
      reflexivity.
Defined.

(** The naming test lowers the method name as the library does: the method
    name of x.Faİl, written with the capital dotted I (U+0130), contains
    fail once lowered, and the call is recognized under that name. *)
Example dotted_I_method :
  let Sel := "Fa" +:+ String "196"%char (String "176"%char "l") in
  strings_ToLower Sel = "fail"
  /\ is_constructor_method Sel = true
  /\ extractErrorMessage (qualified 100 "x" Sel [str_lit 110 (dq "boom")])
     = Ok (Sel, "boom").
Proof. repeat split; reflexivity. Qed.

(** ** Escape sequences *)

Lemma Trim_sep (x : ascii) (a b : string) :
  is_quote x = false ->
  strings_Trim (a +:+ String x b) quote_cutset
  = strings_TrimLeft a quote_cutset +:+ String x (strings_TrimRight b quote_cutset).
Proof.
  intros Hx. unfold strings_Trim.
  rewrite TrimRight_keep by done. by rewrite TrimLeft_keep.
Qed.

Lemma extractStringLiteral_dq (p : token_Pos) (content : string) :
  extractStringLiteral (str_lit p (dq content))
  = normalize_specifiers (strings_Trim content quote_cutset).
Proof.
  unfold str_lit, extractStringLiteral, dq, normalize_specifiers. simpl Token_eqb.
  cbv iota. rewrite Trim_cons by reflexivity. by rewrite Trim_snoc.
Qed.

Lemma extractStringLiteral_bq (p : token_Pos) (content : string) :
  extractStringLiteral (str_lit p (bq content))
  = normalize_specifiers (strings_Trim content quote_cutset).
Proof.
  unfold str_lit, extractStringLiteral, bq, normalize_specifiers. simpl Token_eqb.
  cbv iota. rewrite Trim_cons by reflexivity. by rewrite Trim_snoc.
Qed.

Lemma TrimRight_cons_keep (cutset : string) (x : ascii) (b : string) :
  in_cutset cutset x = false ->
  strings_TrimRight (String x b) cutset = String x (strings_TrimRight b cutset).
Proof. intros Hx. exact (TrimRight_keep cutset "" x b Hx). Qed.

Lemma escape_key (a b : string) :
  normalize_specifiers (strings_Trim (a +:+ escaped_LF +:+ b) quote_cutset)
  = normalize_specifiers (strings_TrimLeft a quote_cutset)
    +:+ escaped_LF +:+ normalize_specifiers (strings_TrimRight b quote_cutset).
Proof.
  change (a +:+ escaped_LF +:+ b) with (a +:+ String backslash (String "n"%char b)).
  rewrite Trim_sep by reflexivity.
  rewrite TrimRight_cons_keep by reflexivity.
  rewrite normalize_sep by reflexivity.
  by rewrite normalize_plain by reflexivity.
Qed.

Lemma line_feed_key (a b : string) :
  normalize_specifiers (strings_Trim (a +:+ String LF b) quote_cutset)
  = normalize_specifiers (strings_TrimLeft a quote_cutset)
    +:+ String LF (normalize_specifiers (strings_TrimRight b quote_cutset)).
Proof.
  rewrite Trim_sep by reflexivity. by rewrite normalize_sep by reflexivity.
Qed.

(** The escape sequence for a line feed and the line feed itself, between
    any two texts. *)
Lemma escape_keys_differ (p1 p2 : token_Pos) (a b : string) :
  extractStringLiteral (str_lit p1 (dq (a +:+ escaped_LF +:+ b)))
  <> extractStringLiteral (str_lit p2 (bq (a +:+ String LF b))).
Proof.
  rewrite extractStringLiteral_dq, extractStringLiteral_bq.
  rewrite escape_key, line_feed_key. intros H.
  apply (f_equal String.length) in H.
  rewrite !str_length_app in H. simpl in H. lia.
Qed.

Lemma occurrence_errors_New (p : token_Pos) (e : Expr) :
  occurrence (errors_New p [e])
  = if String.eqb (extractStringLiteral e) "" then None
    else Some (extractStringLiteral e, mkErrorInfo (errors_New p [e]) "errors.New").
Proof.
  unfold occurrence.
  change (extractErrorMessage (errors_New p [e])) with
    (if String.eqb (extractStringLiteral e) "" then Ok ("", "")
     else Ok ("errors.New", extractStringLiteral e)).
  destruct (String.eqb (extractStringLiteral e) "") eqn:He; [done|].
  simpl. by rewrite He.
Qed.

Lemma no_group_no_report
    (Fset_Position : token_Pos -> Position) (quote_escapes : string -> string)
    (range : gmap string (list ErrorInfo) -> list (string * list ErrorInfo))
    (nodes : list CallExpr) :
  map_range range ->
  (forall key, (length (group_of key nodes) <= 1)%nat) ->
  run Fset_Position quote_escapes range nodes = Ok [].
Proof.
  intros Hrange Hone. rewrite run_returns. f_equal.
  assert (Forall (fun entry => group_diagnostics Fset_Position quote_escapes entry = [])
            (range (registry nodes))) as Hall.
  { apply Forall_forall. intros [key locations] Hin.
    rewrite (Hrange _) in Hin.
    apply elem_of_map_to_list, registry_group in Hin as [-> _].
    apply group_diagnostics_nil, Hone. }
  induction Hall as [|entry l He _ IH]; [done|]. simpl. by rewrite He, IH.
Qed.

(** *** Bytes that both steps keep *)

Lemma count_byte_app (x : ascii) (a b : string) :
  count_byte x (a +:+ b) = (count_byte x a + count_byte x b)%nat.
Proof.
  induction a as [|c a IH]; [done|].
  rewrite str_app_cons. simpl. rewrite IH. lia.
Qed.

Lemma count_byte_none (P : ascii -> bool) (x : ascii) (s : string) :
  P x = false -> str_all P s = true -> count_byte x s = 0%nat.
Proof.
  intros Hx. induction s as [|c s IH]; [done|]. simpl.
  intros [Hc Hs]%andb_true_iff.
  destruct (Ascii.eqb_spec c x) as [->|_]; [congruence|]. by rewrite IH.
Qed.

Lemma specifier_tail_class (w : string) :
  specifier_tail w = true -> str_all specifier_class w = true.
Proof.
  induction w as [|c w IH]; [done|]. destruct w as [|d w].
  - simpl. intros H. by rewrite (is_letter_class _ H).
  - change (specifier_tail (String c (String d w)))
      with (specifier_class c && specifier_tail (String d w)).
    intros [Hc Hw]%andb_true_iff.
    change (str_all specifier_class (String c (String d w)))
      with (specifier_class c && str_all specifier_class (String d w)).
    by rewrite Hc, (IH Hw).
Qed.

Section Kept.

(** A byte that is no quote, no percent sign and not in the class of the
    pattern: the backslash and the carriage return, for two. *)
Variable x : ascii.
Hypothesis x_quote : is_quote x = false.
Hypothesis x_percent : Ascii.eqb "%"%char x = false.
Hypothesis x_class : specifier_class x = false.

Lemma count_byte_Trim (s : string) :
  count_byte x (strings_Trim s quote_cutset) = count_byte x s.
Proof.
  unfold strings_Trim.
  destruct (TrimRight_suffix quote_cutset s) as (post & Hs & Hpost).
  destruct (TrimLeft_prefix quote_cutset (strings_TrimRight s quote_cutset))
    as (pre & Hr & Hpre).
  rewrite Hs at 2. rewrite Hr at 2. rewrite !count_byte_app.
  rewrite (count_byte_none (in_cutset quote_cutset) x post x_quote Hpost).
  rewrite (count_byte_none (in_cutset quote_cutset) x pre x_quote Hpre). lia.
Qed.

Lemma count_byte_placeholder : count_byte x "%x" = 0%nat.
Proof.
  cbn [count_byte]. rewrite x_percent.
  destruct (Ascii.eqb_spec "x"%char x) as [Hx|_]; [|done].
  rewrite <- Hx in x_class. discriminate x_class.
Qed.

Lemma count_byte_replace_scan (s : string) (k : nat) (w rest : string) :
  s = w +:+ rest -> String.length w = k -> count_byte x w = 0%nat ->
  count_byte x (replace_scan formatSpecifier "%x" k s) = count_byte x rest.
Proof.
  revert k w rest. induction s as [|c s IH]; intros k w rest Hs Hk Hw.
  - destruct w; [|done]. rewrite str_app_nil_l in Hs. subst rest.
    simpl in Hk. by subst k.
  - destruct k as [|k].
    + destruct w; [|done]. rewrite str_app_nil_l in Hs. subst rest.
      rewrite replace_scan_cons0.
      destruct (match_here formatSpecifier (String c s)) as [[|n]|] eqn:Hm.
      * simpl. by rewrite (IH 0%nat "" s).
      * destruct (match_spec_sound _ _ Hm) as (w2 & rest2 & Heq & Hlen & Hw2).
        destruct w2 as [|c2 w2]; [done|].
        rewrite str_app_cons in Heq. injection Heq as <- ->.
        unfold is_specifier in Hw2. apply andb_true_iff in Hw2 as [Hc Ht].
        apply Ascii.eqb_eq in Hc as <-.
        apply specifier_tail_class in Ht.
        pose proof (count_byte_none specifier_class x w2 x_class Ht) as H0.
        rewrite count_byte_app, (IH n w2 rest2) by (done || (simpl in Hlen; lia)).
        rewrite count_byte_placeholder.
        change (count_byte x (String "%"%char (w2 +:+ rest2)))
          with ((if Ascii.eqb "%"%char x then 1 else 0)
                + count_byte x (w2 +:+ rest2))%nat.
        rewrite x_percent, count_byte_app, H0. lia.
      * simpl. by rewrite (IH 0%nat "" s).
    + destruct w as [|c' w]; [done|].
      rewrite str_app_cons in Hs. injection Hs as <- ->.
      rewrite replace_scan_consS. simpl in Hk, Hw.
      apply (IH k w rest); [done|lia|lia].
Qed.

(** Neither step of [extractStringLiteral] adds or removes such a byte. *)
Lemma count_byte_key (content : string) :
  count_byte x (normalize_specifiers (strings_Trim content quote_cutset))
  = count_byte x content.
Proof.
  unfold normalize_specifiers, regexp_ReplaceAllString.
  rewrite (count_byte_replace_scan _ 0 "" (strings_Trim content quote_cutset))
    by done.
  apply count_byte_Trim.
Qed.

End Kept.

(** *** What an escape sequence stands for *)

Lemma octal_digit_clean (c : ascii) : is_octal_digit c = true -> is_clean c = true.
Proof.
  destruct c as [[] [] [] [] [] [] [] []]; vm_compute; intros H;
    first [discriminate H | reflexivity].
Qed.

Lemma hex_digit_clean (c : ascii) : is_hex_digit c = true -> is_clean c = true.
Proof.
  destruct c as [[] [] [] [] [] [] [] []]; vm_compute; intros H;
    first [discriminate H | reflexivity].
Qed.

Lemma digits_clean (is_a_digit : ascii -> bool) (ds : list ascii) :
  (forall c, is_a_digit c = true -> is_clean c = true) ->
  forallb is_a_digit ds = true ->
  str_all is_clean (string_of_list_ascii ds) = true.
Proof.
  intros Hd. induction ds as [|c ds IH]; [done|]. simpl.
  intros [Hc Hds]%andb_true_iff. by rewrite (Hd c Hc), (IH Hds).
Qed.

Lemma count_byte_single (x c : ascii) :
  (count_byte x (String c "") <= 1)%nat
  /\ (count_byte x (String c "") = 1%nat -> String c "" = String x "").
Proof.
  simpl. destruct (Ascii.eqb_spec c x) as [->|_]; split; (lia || done).
Qed.

Lemma high_byte_not_backslash (b0 b1 b2 b3 b4 b5 b6 : bool) :
  Ascii.eqb (Ascii b0 b1 b2 b3 b4 b5 b6 true) backslash = false.
Proof. apply Ascii.eqb_neq. discriminate. Qed.

(** The encoding of a code point holds a backslash only when it is the
    backslash. *)
Lemma count_byte_utf8 (r : N) :
  (count_byte backslash (utf8_AppendRune r) <= 1)%nat
  /\ (count_byte backslash (utf8_AppendRune r) = 1%nat ->
      utf8_AppendRune r = String backslash "").
Proof.
  unfold utf8_AppendRune, continuation_byte.
  repeat case_match; [apply count_byte_single|..];
    cbn [count_byte]; rewrite !high_byte_not_backslash; split; (lia || done).
Qed.

Lemma escape_text_length (e : Escape) : (1 <= String.length (escape_text e))%nat.
Proof. destruct e; simpl; lia. Qed.

(** The text of an escape sequence written with digits. *)
Lemma escape_digits_clean (e : Escape) (d : string) :
  escape_value e = Some d ->
  match e with EscSimple _ => False | _ => True end ->
  str_all is_clean (escape_text e) = true.
Proof.
  destruct e as [c|d1 d2 d3|h1 h2|h1 h2 h3 h4|h1 h2 h3 h4 h5 h6 h7 h8];
    unfold escape_value; intros Hv He; [done|..].
  - destruct (forallb is_octal_digit [d1; d2; d3]) eqn:Hd; [|done].
    exact (digits_clean _ [d1; d2; d3] octal_digit_clean Hd).
  - destruct (forallb is_hex_digit [h1; h2]) eqn:Hd; [|done].
    exact (digits_clean _ [h1; h2] hex_digit_clean Hd).
  - destruct (forallb is_hex_digit [h1; h2; h3; h4]) eqn:Hd; [|done].
    exact (digits_clean _ [h1; h2; h3; h4] hex_digit_clean Hd).
  - destruct (forallb is_hex_digit [h1; h2; h3; h4; h5; h6; h7; h8]) eqn:Hd; [|done].
    exact (digits_clean _ [h1; h2; h3; h4; h5; h6; h7; h8] hex_digit_clean Hd).
Qed.

(** An escape sequence never stands for more backslashes than it is written
    with, and stands for as many only when it is written with digits and
    stands for the backslash; it is written without a carriage return. *)
Lemma escape_count (e : Escape) (d : string) :
  escape_value e = Some d ->
  (count_byte backslash d <= 1)%nat
  /\ (count_byte backslash d = (1 + count_byte backslash (escape_text e))%nat ->
      d = String backslash "" /\ str_all is_clean (escape_text e) = true)
  /\ count_byte CR (escape_text e) = 0%nat.
Proof.
  intros Hv. pose proof (escape_digits_clean e d Hv) as Hclean.
  destruct e as [c|d1 d2 d3|h1 h2|h1 h2 h3 h4|h1 h2 h3 h4 h5 h6 h7 h8].
  - clear Hclean. unfold escape_value, escape_text in *.
    repeat match goal with
           | H : context [Ascii.eqb c ?x] |- _ =>
               destruct (Ascii.eqb_spec c x) as [->|_]
           end;
      [injection Hv as <-; vm_compute; split; [lia|split; [discriminate|reflexivity]]..
      |discriminate Hv].
  - specialize (Hclean I). unfold escape_value in Hv.
    case_match; [|done]. injection Hv as <-.
    destruct (count_byte_single backslash (ascii_of_N (number 8 [d1; d2; d3])))
      as [Hle Heq].
    split; [exact Hle|]. split; [|by apply (count_byte_none is_clean)].
    intros Hc. split; [apply Heq; lia|done].
  - specialize (Hclean I). unfold escape_value in Hv.
    case_match; [|done]. injection Hv as <-.
    destruct (count_byte_single backslash (ascii_of_N (number 16 [h1; h2])))
      as [Hle Heq].
    split; [exact Hle|]. split; [|by apply (count_byte_none is_clean)].
    intros Hc. split; [apply Heq; lia|done].
  - specialize (Hclean I). unfold escape_value in Hv.
    case_match; [|done]. injection Hv as <-.
    destruct (count_byte_utf8 (number 16 [h1; h2; h3; h4])) as [Hle Heq].
    split; [exact Hle|]. split; [|by apply (count_byte_none is_clean)].
    intros Hc. split; [apply Heq; lia|done].
  - specialize (Hclean I). unfold escape_value in Hv.
    case_match; [|done]. injection Hv as <-.
    destruct (count_byte_utf8 (number 16 [h1; h2; h3; h4; h5; h6; h7; h8]))
      as [Hle Heq].
    split; [exact Hle|]. split; [|by apply (count_byte_none is_clean)].
    intros Hc. split; [apply Heq; lia|done].
Qed.

Lemma elem_count (x : LitElem) (v : string) :
  elem_value x = Some v ->
  (count_byte backslash v <= count_byte backslash (elem_text x))%nat
  /\ (count_byte backslash v = count_byte backslash (elem_text x) -> tight x)
  /\ (count_byte CR v = 0%nat -> count_byte CR (elem_text x) = 0%nat).
Proof.
  destruct x as [b|e]; simpl.
  - destruct (Ascii.eqb_spec b backslash) as [|Hb]; [done|].
    cbn [orb]. destruct (Ascii.eqb b dquote || Ascii.eqb b LF); [done|].
    intros [= <-]. simpl. apply Ascii.eqb_neq in Hb as ->. split; [lia|done].
  - intros Hv. destruct (escape_count e v Hv) as (Hle & Heq & Hcr).
    change (Ascii.eqb backslash backslash) with true.
    change (Ascii.eqb backslash CR) with false.
    split; [lia|]. split; [|intros _; by rewrite Hcr].
    intros Hc. destruct (Heq Hc) as [-> Hclean]. done.
Qed.

Lemma denoted_cons (x : LitElem) (elems : list LitElem) (v : string) :
  denoted (x :: elems) = Some v ->
  exists v1 vs,
    elem_value x = Some v1 /\ denoted elems = Some vs /\ v = v1 +:+ vs.
Proof.
  simpl. destruct (elem_value x) as [v1|]; [|done].
  destruct (denoted elems) as [vs|]; [|done].
  intros [= <-]. by exists v1, vs.
Qed.

(** The value of a literal never holds more backslashes than its text, and
    holds as many only when every escape sequence of the literal is written
    with digits and stands for the backslash; a literal whose value holds no
    carriage return is written without one. *)
Lemma denoted_count (elems : list LitElem) (v : string) :
  denoted elems = Some v ->
  (count_byte backslash v <= count_byte backslash (written elems))%nat
  /\ (count_byte backslash v = count_byte backslash (written elems) ->
      Forall tight elems)
  /\ (count_byte CR v = 0%nat -> count_byte CR (written elems) = 0%nat).
Proof.
  revert v. induction elems as [|x elems IH]; intros v Hv.
  - injection Hv as <-. by split.
  - apply denoted_cons in Hv as (v1 & vs & Hx & Hd & ->).
    destruct (elem_count x v1 Hx) as (Hle1 & Ht1 & Hcr1).
    destruct (IH vs Hd) as (Hle2 & Ht2 & Hcr2).
    simpl. rewrite !count_byte_app. split; [lia|]. split.
    + intros Heq. constructor; [apply Ht1|apply Ht2]; lia.
    + intros Hcr. rewrite Hcr1, Hcr2 by lia. done.
Qed.

Lemma written_count (elems : list LitElem) :
  existsb is_escape elems = true ->
  (1 <= count_byte backslash (written elems))%nat.
Proof.
  induction elems as [|[b|e] elems IH]; [done|..]; simpl.
  - intros H. rewrite count_byte_app. specialize (IH H). lia.
  - intros _. change (Ascii.eqb backslash backslash) with true. lia.
Qed.

(** *** Raw literals *)

Lemma raw_value_cons (c : ascii) (content value : string) :
  raw_value (String c content) = Some value ->
  exists v,
    raw_value content = Some v
    /\ value = if Ascii.eqb c CR then v else String c v.
Proof.
  simpl. destruct (Ascii.eqb c backquote); [done|].
  destruct (raw_value content) as [v|]; [|done].
  intros [= <-]. by exists v.
Qed.

(** The value of a raw literal holds no carriage return, and is the text of
    the literal when the text holds none. *)
Lemma raw_value_CR (content value : string) :
  raw_value content = Some value ->
  count_byte CR value = 0%nat
  /\ (count_byte CR content = 0%nat -> content = value).
Proof.
  revert value. induction content as [|c content IH]; intros value Hv.
  - injection Hv as <-. by split.
  - apply raw_value_cons in Hv as (v & Hv & ->).
    destruct (IH v Hv) as [Hcr Hsame]. simpl.
    destruct (Ascii.eqb c CR) eqn:Hc; [split; [done|lia]|].
    simpl. rewrite Hc. split; [done|]. intros H0. by rewrite Hsame.
Qed.

(** *** Escapes that stand for a backslash *)

Lemma normalize_clean (r x : string) :
  str_all is_clean r = true ->
  normalize_specifiers (r +:+ x) = r +:+ normalize_specifiers x.
Proof.
  induction r as [|c r IH]; [done|]. intros H. simpl in H.
  apply andb_true_iff in H as [[[_ Hc]%andb_true_iff _]%andb_true_iff Hr].
  rewrite !str_app_cons, normalize_plain by (by apply negb_true_iff).
  by rewrite IH.
Qed.

Lemma TrimRight_clean (r x : string) :
  str_all is_clean r = true ->
  strings_TrimRight (r +:+ x) quote_cutset = r +:+ strings_TrimRight x quote_cutset.
Proof.
  induction r as [|c r IH]; [done|]. intros H. simpl in H.
  apply andb_true_iff in H as [[[Hc _]%andb_true_iff _]%andb_true_iff Hr].
  rewrite !str_app_cons, TrimRight_cons_keep by (by apply negb_true_iff).
  by rewrite IH.
Qed.

Lemma byte_value (b : ascii) (v : string) :
  elem_value (LitByte b) = Some v -> v = String b "".
Proof. simpl. case_match; [done|]. by intros [= <-]. Qed.

Lemma tight_TrimRight_length (elems : list LitElem) :
  Forall tight elems ->
  forall v a,
    denoted elems = Some v ->
    (String.length (normalize_specifiers (strings_TrimRight (a +:+ v) quote_cutset))
     <= String.length
          (normalize_specifiers
             (strings_TrimRight (a +:+ written elems) quote_cutset)))%nat.
Proof.
  induction 1 as [|x elems Hx _ IH]; intros v a Hv.
  - by injection Hv as <-.
  - apply denoted_cons in Hv as (v1 & vs & Hv1 & Hd & ->).
    destruct x as [b|e].
    + apply byte_value in Hv1 as ->. simpl written.
      rewrite <- !str_app_assoc. by apply IH.
    + destruct Hx as [He Hclean]. simpl in Hv1. rewrite He in Hv1.
      injection Hv1 as <-. simpl written.
      rewrite !str_app_cons, str_app_nil_l.
      rewrite !TrimRight_keep by reflexivity.
      rewrite !normalize_sep by reflexivity.
      rewrite TrimRight_clean, normalize_clean by done.
      rewrite !str_length_app. simpl.
      specialize (IH vs "" Hd). rewrite !str_app_nil_l in IH.
      rewrite str_length_app. lia.
Qed.

Lemma tight_Trim_length (elems : list LitElem) :
  Forall tight elems ->
  existsb is_escape elems = true ->
  forall v a,
    denoted elems = Some v ->
    (String.length (normalize_specifiers (strings_Trim (a +:+ v) quote_cutset))
     < String.length
         (normalize_specifiers (strings_Trim (a +:+ written elems) quote_cutset)))%nat.
Proof.
  induction 1 as [|x elems Hx Helems IH]; intros Hesc v a Hv; [done|].
  apply denoted_cons in Hv as (v1 & vs & Hv1 & Hd & ->).
  destruct x as [b|e].
  - apply byte_value in Hv1 as ->. simpl written.
    rewrite <- !str_app_assoc. by apply IH.
  - destruct Hx as [He Hclean]. simpl in Hv1. rewrite He in Hv1.
    injection Hv1 as <-. simpl written.
    rewrite !str_app_cons, str_app_nil_l.
    rewrite !Trim_sep by reflexivity.
    rewrite !normalize_sep by reflexivity.
    rewrite TrimRight_clean, normalize_clean by done.
    rewrite !str_length_app. simpl.
    pose proof (tight_TrimRight_length elems Helems vs "" Hd) as Hle.
    rewrite !str_app_nil_l in Hle.
    pose proof (escape_text_length e).
    rewrite str_length_app. lia.
Qed.

(** The keys of an interpreted literal with an escape sequence and of a raw
    literal with the same value always differ. *)
Lemma escaped_keys_differ (p1 p2 : token_Pos) (elems : list LitElem)
    (content value : string) :
  denoted elems = Some value ->
  raw_value content = Some value ->
  existsb is_escape elems = true ->
  extractStringLiteral (str_lit p1 (dq (written elems)))
  <> extractStringLiteral (str_lit p2 (bq content)).
Proof.
  intros Hv Hraw Hesc. rewrite extractStringLiteral_dq, extractStringLiteral_bq.
  intros Heq.
  destruct (denoted_count elems value Hv) as (_ & Ht & Hcr).
  destruct (raw_value_CR content value Hraw) as [Hcr0 Hsame].
  pose proof (f_equal (count_byte CR) Heq) as Hc.
  rewrite !(count_byte_key CR eq_refl eq_refl eq_refl) in Hc.
  rewrite (Hcr Hcr0) in Hc. symmetry in Hc. apply Hsame in Hc. subst content.
  pose proof (f_equal (count_byte backslash) Heq) as Hb.
  rewrite !(count_byte_key backslash eq_refl eq_refl eq_refl) in Hb.
  pose proof (tight_Trim_length elems (Ht (eq_sym Hb)) Hesc value "" Hv) as Hlt.
  rewrite !str_app_nil_l, Heq in Hlt. lia.
Qed.

Lemma escaped_key_nonempty (p : token_Pos) (elems : list LitElem) :
  existsb is_escape elems = true ->
  extractStringLiteral (str_lit p (dq (written elems))) <> "".
Proof.
  intros Hesc Heq. rewrite extractStringLiteral_dq in Heq.
  pose proof (f_equal (count_byte backslash) Heq) as Hc.
  rewrite (count_byte_key backslash eq_refl eq_refl eq_refl) in Hc.
  apply written_count in Hesc. simpl in Hc. lia.
Qed.

(** C10. The token text is compared as written.  Take any well-formed
    interpreted literal that holds at least one escape sequence, of any kind
    and in any number, and any raw literal that denotes the same string
    value: the two keys differ, two calls made with the two literals are not
    reported, and in no package do the two calls lie in one entry of the
    map. *)
Theorem escapes_not_decoded (p1 p2 q1 q2 : token_Pos)
    (elems : list LitElem) (content value : string) :
  denoted elems = Some value ->
  raw_value content = Some value ->
  existsb is_escape elems = true ->
  let interpreted := errors_New p1 [str_lit q1 (dq (written elems))] in
  let raw := errors_New p2 [str_lit q2 (bq content)] in
  extractStringLiteral (str_lit q1 (dq (written elems)))
  <> extractStringLiteral (str_lit q2 (bq content))
  /\ (forall Fset_Position quote_escapes range,
        map_range range ->
        run Fset_Position quote_escapes range [interpreted; raw] = Ok [])
  /\ (forall nodes errorMap range entry,
        map_range range ->
        Preorder nodes ∅ = Ok errorMap ->
        entry ∈ range errorMap ->
        ~ (mkErrorInfo interpreted "errors.New" ∈ entry.2
           /\ mkErrorInfo raw "errors.New" ∈ entry.2)).
Proof.
  intros Hv Hraw Hesc interpreted raw.
  pose proof (escaped_keys_differ q1 q2 elems content value Hv Hraw Hesc) as Hne.
  pose proof (escaped_key_nonempty q1 elems Hesc) as Hne1.
  apply String.eqb_neq in Hne1.
  split; [done|]. split.
  - intros Fset_Position quote_escapes range Hrange.
    apply no_group_no_report; [done|]. intros key.
    unfold group_of, interpreted, raw. simpl omap.
    rewrite !occurrence_errors_New, Hne1.
    destruct (String.eqb (extractStringLiteral (str_lit q2 (bq content))) "").
    + destruct (String.eqb (extractStringLiteral (str_lit q1 (dq (written elems)))) key);
        simpl; lia.
    + destruct (String.eqb_spec
                  (extractStringLiteral (str_lit q1 (dq (written elems)))) key)
        as [H1|_];
      destruct (String.eqb_spec (extractStringLiteral (str_lit q2 (bq content))) key)
        as [H2|_]; simpl; try lia.
      congruence.
  - intros nodes errorMap range [key locations] Hrange Hmap Hin [H1 H2].
    rewrite Preorder_registry in Hmap. injection Hmap as <-.
    rewrite (Hrange _) in Hin.
    apply elem_of_map_to_list, registry_group in Hin as [-> _]. simpl in H1, H2.
    apply elem_of_group_of in H1 as (n1 & _ & Ho1).
    apply elem_of_group_of in H2 as (n2 & _ & Ho2).
    destruct (occurrence_info _ _ _ Ho1) as [Hn1 _].
    destruct (occurrence_info _ _ _ Ho2) as [Hn2 _].
    simpl in Hn1, Hn2. subst n1 n2. unfold interpreted, raw in Ho1, Ho2.
    rewrite occurrence_errors_New, Hne1 in Ho1.
    rewrite occurrence_errors_New in Ho2.
    destruct (String.eqb (extractStringLiteral (str_lit q2 (bq content))) "");
      congruence.
Qed.

Lemma escapes_not_decoded_witness :
  let value := String "a"%char (String "009"%char (String "b"%char (String backslash ""))) in
  let content := String "a"%char (String "009"%char (String CR (String "b"%char (String backslash "")))) in
  denoted sample_elems = Some value
  /\ raw_value content = Some value
  /\ existsb is_escape sample_elems = true
  /\ map_range map_to_list
  /\ run test_Fset plain_q map_to_list
       [ errors_New 100 [str_lit 111 (dq (written sample_elems))];
         errors_New 200 [str_lit 211 (bq content)] ]
     = Ok [].
Proof.
  intros value content.
  split; [reflexivity|]. split; [reflexivity|]. split; [reflexivity|].
  split; [apply map_to_list_range|].
  apply (escapes_not_decoded 100 200 111 211 sample_elems content value
           eq_refl eq_refl eq_refl),
    map_to_list_range.
Defined.

(** * Further properties of the analyzer *)

(** ** Panics *)

(** X1. Neither the extraction of a message nor a whole run panics: the
    indexing of the arguments and of the occurrence lists is always in
    range, whatever the call nodes and whatever entries the enumeration of
    the map hands to the report loop. *)
Theorem run_never_panics
    (Fset_Position : token_Pos -> Position) (quote_escapes : string -> string)
    (range : gmap string (list ErrorInfo) -> list (string * list ErrorInfo))
    (nodes : list CallExpr) :
  (forall call, exists construct msg, extractErrorMessage call = Ok (construct, msg))
  /\ (forall entry, exists ds, report_entry Fset_Position quote_escapes entry = Ok ds)
  /\ exists ds, run Fset_Position quote_escapes range nodes = Ok ds.
Proof.
  split; [|split].
  - intros call. destruct (extractErrorMessage_returns call) as [[construct msg] H].
    by exists construct, msg.
  - intros entry. eexists. apply report_entry_returns.
  - eexists. apply run_returns.
Qed.

(** ** Where a message comes from *)

Lemma string_lit_of_key (e : Expr) :
  extractStringLiteral e <> "" -> is_string_lit e = true.
Proof.
  intros H. destruct (is_string_lit e) eqn:He; [done|].
  by apply not_string_lit_empty in He.
Qed.

Lemma select_msgArg_member (construct : string) (args : list Expr) (msgArg : Expr) :
  select_msgArg construct args = Ok (Some msgArg) -> msgArg ∈ args.
Proof.
  unfold select_msgArg. intros Hsel.
  destruct args as [|a0 args].
  - repeat case_match; by simplify_eq/=.
  - rewrite index_head in Hsel.
    change (0 <? length (a0 :: args))%nat with true in Hsel.
    assert (msgArg = a0 \/ find is_string_lit args = Some msgArg) as [->|Hf].
    { destruct (String.eqb construct "errors.New").
      { destruct (negb (length (a0 :: args) =? 1)%nat); simplify_eq/=; by left. }
      destruct (String.eqb construct "fmt.Errorf"); [simplify_eq/=; by left|].
      destruct (existsb (String.eqb construct) first_arg_constructs);
        [simplify_eq/=; by left|].
      simpl in Hsel. destruct (is_string_lit a0); simplify_eq/=; [by left|by right]. }
    + apply list_elem_of_here.
    + apply find_some in Hf as [Hin _]. apply list_elem_of_further.
      by apply list_elem_of_In.
Qed.

(** X2. A call is recorded only under the key of one of its own arguments,
    and that argument is a string literal: the construct that comes with the
    message is the name [getErrorConstructName] gives and is not empty.  In
    particular a call without arguments, or without a string literal among
    them, is never recorded. *)
Theorem message_from_string_literal (call : CallExpr) (construct msg : string) :
  extractErrorMessage call = Ok (construct, msg) ->
  msg <> "" ->
  construct = getErrorConstructName call /\ construct <> ""
  /\ exists lit,
       lit ∈ Args call /\ is_string_lit lit = true
       /\ msg = extractStringLiteral lit.
Proof.
  unfold extractErrorMessage. intros H Hmsg.
  destruct (String.eqb_spec (getErrorConstructName call) "") as [|Hc];
    [by simplify_eq|].
  destruct (length (Args call) =? 0)%nat; [by simplify_eq|].
  destruct (select_msgArg (getErrorConstructName call) (Args call))
    as [[msgArg|]|] eqn:Hsel; simpl in H; [|by simplify_eq..].
  destruct (String.eqb_spec (extractStringLiteral msgArg) "") as [|Hk];
    [by simplify_eq|].
  injection H as <- <-. split; [done|]. split; [done|].
  exists msgArg. split; [by eapply select_msgArg_member|].
  split; [by apply string_lit_of_key|done].
Qed.

Lemma message_from_string_literal_witness :
  extractErrorMessage (fmt_Errorf 400 [str_lit 411 (dq "validation error")])
  = Ok ("fmt.Errorf", "validation error")
  /\ "validation error" <> ""
  /\ exists lit,
       lit ∈ Args (fmt_Errorf 400 [str_lit 411 (dq "validation error")])
       /\ is_string_lit lit = true
       /\ "validation error" = extractStringLiteral lit.
Proof.
  split; [reflexivity|]. split; [discriminate|].
  apply (message_from_string_literal
           (fmt_Errorf 400 [str_lit 411 (dq "validation error")])
           "fmt.Errorf" "validation error"); [reflexivity|discriminate].
Defined.

(** ** The recognition rules *)

Lemma chained_method_listed (sel : string) :
  is_chained_log_method sel = true ->
  existsb (String.eqb sel) ("fmt.Errorf" :: first_arg_constructs) = true.
Proof.
  unfold is_chained_log_method. intros H.
  repeat (apply orb_true_iff in H as [H|H]);
    apply String.eqb_eq in H; by subst sel.
Qed.

(** The outcome when the first argument alone is looked at. *)
Lemma first_arg_message (call : CallExpr) :
  existsb (String.eqb (getErrorConstructName call))
    ("fmt.Errorf" :: first_arg_constructs) = true ->
  extractErrorMessage call
  = Ok match Args call with
       | [] => ("", "")
       | a0 :: _ => message_of (getErrorConstructName call) a0
       end.
Proof.
  intros Hc. destruct (Args call) as [|a0 args] eqn:Hargs.
  - unfold extractErrorMessage. rewrite Hargs. simpl.
    by destruct (String.eqb (getErrorConstructName call) "").
  - by apply first_arg_only with (args := args).
Qed.

(** X3. A method call on the result of another call is recognized exactly
    when the method is [Logf], [LogErrorf], [LogError] or [Log], under that
    name and whatever the inner call is; its message is its first argument,
    and a string literal in a later position is never used. *)
Theorem chained_log_call (inner : Expr) (inner_args : list Expr)
    (Sel : Ident) (args : list Expr) :
  let call := mkCall (ESelectorExpr (ECallExpr inner inner_args) Sel) args in
  getErrorConstructName call
  = (if is_chained_log_method (Name Sel) then Name Sel else "")
  /\ extractErrorMessage call
     = Ok (if is_chained_log_method (Name Sel) then
             match args with
             | [] => ("", "")
             | a0 :: _ => message_of (Name Sel) a0
             end
           else ("", "")).
Proof.
  intros call.
  assert (getErrorConstructName call
          = if is_chained_log_method (Name Sel) then Name Sel else "") as Hname.
  { unfold call, getErrorConstructName. simpl.
    by destruct (is_chained_log_method (Name Sel)). }
  split; [done|].
  destruct (is_chained_log_method (Name Sel)) eqn:Hm.
  - rewrite first_arg_message; rewrite Hname; [done|].
    by apply chained_method_listed.
  - unfold extractErrorMessage. by rewrite Hname.
Qed.

(** X4. A call whose callee is neither a bare identifier, nor a selector on
    a bare identifier, nor one of the four log methods on the result of a
    call is never recognized: whatever its name and its arguments, it leaves
    the map as it is. *)
Theorem uninspected_callee_ignored
    (f : Expr) (args : list Expr) (errorMap : gmap string (list ErrorInfo)) :
  callee_inspected f = false ->
  getErrorConstructName (mkCall f args) = ""
  /\ extractErrorMessage (mkCall f args) = Ok ("", "")
  /\ visit errorMap (mkCall f args) = Ok errorMap.
Proof.
  intros Hf.
  assert (getErrorConstructName (mkCall f args) = "") as Hname.
  { unfold getErrorConstructName. simpl.
    destruct f as [id|p k v|X Sel|g gargs|p]; try done.
    destruct X as [id|p k v|Y Sel'|g gargs|p]; simpl in *; try done.
    by rewrite Hf. }
  split; [done|].
  assert (extractErrorMessage (mkCall f args) = Ok ("", "")) as Hmsg.
  { unfold extractErrorMessage. by rewrite Hname. }
  split; [done|]. unfold visit. by rewrite Hmsg.
Qed.

Lemma uninspected_callee_ignored_witness :
  callee_inspected
    (ESelectorExpr (ESelectorExpr (EIdent (mkIdent 100 "pkg")) (mkIdent 104 "errs"))
       (mkIdent 109 "NewError")) = false
  /\ visit ∅
       (mkCall
          (ESelectorExpr (ESelectorExpr (EIdent (mkIdent 100 "pkg")) (mkIdent 104 "errs"))
             (mkIdent 109 "NewError"))
          [str_lit 118 (dq "bad input")])
     = Ok ∅.
Proof.
  split; [reflexivity|].
  apply (uninspected_callee_ignored
           (ESelectorExpr (ESelectorExpr (EIdent (mkIdent 100 "pkg")) (mkIdent 104 "errs"))
              (mkIdent 109 "NewError"))
           [str_lit 118 (dq "bad input")] ∅).
  reflexivity.
Defined.

(** X5. [errors.New] gives a message only when it is called with exactly one
    argument, [fmt.Errorf] takes its first argument whatever follows; both
    are recognized under their qualified name although the method names
    would pass the naming test. *)
Theorem builtin_constructors (p p' : token_Pos) (args : list Expr) :
  extractErrorMessage
    (mkCall (ESelectorExpr (EIdent (mkIdent p "errors")) (mkIdent p' "New")) args)
  = Ok match args with
       | [a0] => message_of "errors.New" a0
       | _ => ("", "")
       end
  /\ extractErrorMessage
       (mkCall (ESelectorExpr (EIdent (mkIdent p "fmt")) (mkIdent p' "Errorf")) args)
     = Ok match args with
          | [] => ("", "")
          | a0 :: _ => message_of "fmt.Errorf" a0
          end
  /\ is_constructor_method "New" = true /\ is_constructor_method "Errorf" = true.
Proof.
  split; [|split; [|by split]].
  - destruct args as [|a0 [|a1 args]]; try reflexivity.
    unfold extractErrorMessage, message_of. simpl.
    by destruct (String.eqb (extractStringLiteral a0) "").
  - destruct args as [|a0 args]; [reflexivity|].
    unfold extractErrorMessage, message_of. simpl.
    by destruct (String.eqb (extractStringLiteral a0) "").
Qed.

Lemma New_prefix_not_switch_case (name : string) :
  strings_HasPrefix name "New" = true ->
  existsb (String.eqb name) switch_cases = false.
Proof.
  intros H. unfold switch_cases, first_arg_constructs. simpl.
  repeat match goal with
         | |- context [String.eqb name ?c] =>
             destruct (String.eqb_spec name c) as [->|_]; [discriminate H|]
         end.
  reflexivity.
Qed.

Lemma fallback_message (construct : string) (args : list Expr) :
  construct <> "" ->
  existsb (String.eqb construct) switch_cases = false ->
  forall call,
    getErrorConstructName call = construct -> Args call = args ->
    extractErrorMessage call
    = Ok match fallback_msgArg args with
         | Some lit => message_of construct lit
         | None => ("", "")
         end.
Proof.
  intros Hne Hsw call Hname Hargs.
  unfold extractErrorMessage. rewrite Hname, Hargs.
  apply String.eqb_neq in Hne. rewrite Hne.
  destruct args as [|a0 args]; [done|].
  change (length (a0 :: args) =? 0)%nat with false. cbv iota.
  unfold select_msgArg, switch_cases in *.
  change (existsb (String.eqb construct)
            ("errors.New" :: "fmt.Errorf" :: first_arg_constructs))
    with (String.eqb construct "errors.New"
          || (String.eqb construct "fmt.Errorf"
              || existsb (String.eqb construct) first_arg_constructs)) in Hsw.
  apply orb_false_iff in Hsw as [-> Hsw].
  apply orb_false_iff in Hsw as [-> ->].
  change (0 <? length (a0 :: args))%nat with true. cbv iota.
  rewrite index_head. unfold fallback_msgArg, message_of. simpl.
  destruct (is_string_lit a0) eqn:Ha0; simpl.
  - by destruct (String.eqb (extractStringLiteral a0) "").
  - destruct (find is_string_lit args) as [lit|]; [|done].
    by destruct (String.eqb (extractStringLiteral lit) "").
Qed.

(** X6. A call of a bare function name is recognized exactly when the name
    starts with New and contains Error, Err or Fail, under that name; its
    message is then always resolved by the scan (the first argument if it is
    a string literal, else the first string literal among the arguments),
    since no such name is one of the constructs the switch lists. *)
Theorem bare_constructor_call (ident : Ident) (args : list Expr) :
  getErrorConstructName (mkCall (EIdent ident) args)
  = (if is_constructor_func (Name ident) then Name ident else "")
  /\ extractErrorMessage (mkCall (EIdent ident) args)
     = Ok (if is_constructor_func (Name ident) then
             match fallback_msgArg args with
             | Some lit => message_of (Name ident) lit
             | None => ("", "")
             end
           else ("", "")).
Proof.
  assert (getErrorConstructName (mkCall (EIdent ident) args)
          = if is_constructor_func (Name ident) then Name ident else "") as Hname.
  { unfold getErrorConstructName. simpl.
    by destruct (is_constructor_func (Name ident)). }
  split; [done|].
  destruct (is_constructor_func (Name ident)) eqn:Hf.
  - apply andb_true_iff in Hf as [Hnew _].
    apply fallback_message; try done.
    + intros He. rewrite He in Hnew. discriminate Hnew.
    + by apply New_prefix_not_switch_case.
  - unfold extractErrorMessage. by rewrite Hname.
Qed.

Lemma log_package_not_builtin (name : string) :
  is_log_package name = true ->
  String.eqb name "errors" = false /\ String.eqb name "fmt" = false.
Proof.
  intros H. split.
  - destruct (String.eqb_spec name "errors") as [->|]; [discriminate H|done].
  - destruct (String.eqb_spec name "fmt") as [->|]; [discriminate H|done].
Qed.

(** X7. A call x.f, x a bare identifier whose name is log or contains log
    in any case, and f a name of the logging table, is recognized under the
    name of x, also when f would pass the naming test; when that name is
    one the switch lists (log, logger), the message is the first argument
    and nothing else. *)
Theorem logging_call (pkgIdent Sel : Ident) (args : list Expr) :
  is_log_package (Name pkgIdent) = true ->
  is_log_func (Name Sel) = true ->
  let call := mkCall (ESelectorExpr (EIdent pkgIdent) Sel) args in
  getErrorConstructName call = Name pkgIdent
  /\ (existsb (String.eqb (Name pkgIdent)) first_arg_constructs = true ->
      extractErrorMessage call
      = Ok match args with
           | [] => ("", "")
           | a0 :: _ => message_of (Name pkgIdent) a0
           end).
Proof.
  intros Hpkg Hfunc call.
  destruct (log_package_not_builtin _ Hpkg) as [He Hf].
  assert (getErrorConstructName call = Name pkgIdent) as Hname.
  { unfold call, getErrorConstructName. simpl. by rewrite He, Hf, Hpkg, Hfunc. }
  split; [done|]. intros Hlisted.
  rewrite first_arg_message; rewrite Hname; [done|].
  change (String.eqb (Name pkgIdent) "fmt.Errorf"
          || existsb (String.eqb (Name pkgIdent)) first_arg_constructs = true).
  rewrite Hlisted. apply orb_true_r.
Qed.

Lemma logging_call_witness :
  is_log_package "logger" = true /\ is_log_func "Error" = true
  /\ is_constructor_method "Error" = true
  /\ extractErrorMessage
       (mkCall (ESelectorExpr (EIdent (mkIdent 100 "logger")) (mkIdent 107 "Error"))
          [EIdent (mkIdent 113 "err"); str_lit 118 (dq "later")])
     = Ok ("", "").
Proof.
  split; [reflexivity|]. split; [reflexivity|]. split; [reflexivity|].
  apply (logging_call (mkIdent 100 "logger") (mkIdent 107 "Error")
           [EIdent (mkIdent 113 "err"); str_lit 118 (dq "later")]);
    reflexivity.
Defined.

Lemma Contains_cons (c : ascii) (s t : string) :
  strings_Contains (String c s) t
  = String.prefix t (String c s) || strings_Contains s t.
Proof. reflexivity. Qed.

Lemma substring_Contains (s : string) (n : nat) (t : string) :
  String.substring n (String.length t) s = t -> strings_Contains s t = true.
Proof.
  revert n. induction s as [|c s IH]; intros n H.
  - assert (t = "") as -> by (by destruct n, t). reflexivity.
  - rewrite Contains_cons. destruct n as [|n].
    + apply String.prefix_correct in H. by rewrite H.
    + simpl in H. rewrite (IH n H). apply orb_true_r.
Qed.

Lemma HasSuffix_Contains (s suffix : string) :
  strings_HasSuffix s suffix = true -> strings_Contains s suffix = true.
Proof.
  unfold strings_HasSuffix. intros [_ H]%andb_true_iff.
  apply String.eqb_eq in H. by eapply substring_Contains.
Qed.

Lemma prefix_app_l (a b s : string) :
  String.prefix (a +:+ b) s = true -> String.prefix a s = true.
Proof.
  revert s. induction a as [|x a IH]; intros s H; [by destruct s|].
  rewrite str_app_cons in H. destruct s as [|y s]; [done|]. simpl in *.
  destruct (ascii_dec x y); [by apply IH|done].
Qed.

Lemma Contains_app_l (s a b : string) :
  strings_Contains s (a +:+ b) = true -> strings_Contains s a = true.
Proof.
  induction s as [|c s IH].
  - unfold strings_Contains. rewrite !orb_false_r. apply prefix_app_l.
  - rewrite !Contains_cons. intros [H|H]%orb_true_iff.
    + by rewrite (prefix_app_l _ _ _ H).
    + rewrite (IH H). apply orb_true_r.
Qed.

(** X8. Three of the tests on names are subsumed by their neighbours: a
    package is a logging package exactly when its lowercased name contains
    log (the comparison with log adds nothing), the test for the suffix
    Error adds nothing to the test for Error anywhere in a method name, and
    the test for Error adds nothing to the test for Err in a function
    name. *)
Theorem subsumed_name_tests (name : string) :
  is_log_package name = strings_Contains (strings_ToLower name) "log"
  /\ is_constructor_method name
     = (strings_HasPrefix name "New"
        || strings_Contains name "Error"
        || strings_Contains (strings_ToLower name) "fail")
  /\ is_constructor_func name
     = (strings_HasPrefix name "New"
        && (strings_Contains name "Err" || strings_Contains name "Fail")).
Proof.
  split; [|split].
  - unfold is_log_package.
    destruct (String.eqb_spec name "log") as [->|_]; reflexivity.
  - unfold is_constructor_method.
    destruct (strings_HasSuffix name "Error") eqn:Hs; [|reflexivity].
    rewrite (HasSuffix_Contains _ _ Hs). simpl. by rewrite orb_true_r.
  - unfold is_constructor_func.
    destruct (strings_Contains name "Error") eqn:Hc; [|reflexivity].
    by rewrite (Contains_app_l name "Err" "or" Hc).
Qed.

(** ** Keys *)

Lemma match_rest_bounds (s : string) (n : nat) :
  match_here specifier_rest s = Some n -> (1 <= n <= String.length s)%nat.
Proof.
  intros (w & rest & -> & <- & Hw)%match_rest_sound.
  rewrite str_length_app. destruct w; [done|]. simpl. lia.
Qed.

Lemma percent_not_class (c : ascii) :
  Ascii.eqb "%"%char c = true -> specifier_class c = false.
Proof. intros H. apply Ascii.eqb_eq in H. by subst c. Qed.

Lemma replace_scan_head (s : string) :
  replace_scan formatSpecifier "%x" 0 s = ""
  \/ exists c out,
       replace_scan formatSpecifier "%x" 0 s = String c out
       /\ starts_with specifier_class (String c out)
          = starts_with specifier_class s
       /\ forall P : ascii -> bool,
            P "%"%char = false ->
            starts_with P s = false -> P c = false.
Proof.
  destruct s as [|c s]; [by left|]. right.
  rewrite replace_scan_cons0.
  destruct (match_here formatSpecifier (String c s)) as [[|n]|] eqn:Hm.
  - exists c, (replace_scan formatSpecifier "%x" 0 s). by split.
  - exists "%"%char, (String "x"%char (replace_scan formatSpecifier "%x" n s)).
    split; [reflexivity|].
    rewrite match_spec_cons in Hm.
    destruct (Ascii.eqb "%"%char c) eqn:Hc; [|done].
    apply Ascii.eqb_eq in Hc as <-. by split.
  - exists c, (replace_scan formatSpecifier "%x" 0 s). by split.
Qed.

(** A text where no specifier tail starts keeps that property. *)
Lemma match_rest_normalized (s : string) :
  match_here specifier_rest s = None ->
  match_here specifier_rest (replace_scan formatSpecifier "%x" 0 s) = None.
Proof.
  induction s as [|c s IH]; [done|]. intros H.
  rewrite match_rest_cons in H.
  destruct (specifier_class c) eqn:Hc.
  - destruct (match_here specifier_rest s) as [m|] eqn:Hm; [done|].
    destruct (is_letter c) eqn:Hl; [done|].
    rewrite replace_scan_cons0, match_spec_cons.
    destruct (Ascii.eqb "%"%char c) eqn:Hp.
    { apply percent_not_class in Hp. congruence. }
    rewrite match_rest_cons, Hc, (IH eq_refl), Hl. reflexivity.
  - destruct (replace_scan_head (String c s)) as [->|(d & out & -> & Hd & _)]; [done|].
    simpl in Hd. rewrite Hc in Hd. by rewrite match_rest_cons, Hd.
Qed.

(** What is left after a specifier starts no specifier tail. *)
Lemma match_rest_after (s : string) (n : nat) :
  match_here specifier_rest s = Some n ->
  match_here specifier_rest (replace_scan formatSpecifier "%x" n s) = None.
Proof.
  revert n. induction s as [|c s IH]; intros n H; [done|].
  rewrite match_rest_cons in H.
  destruct (specifier_class c); [|done].
  destruct (match_here specifier_rest s) as [m|] eqn:Hm.
  - injection H as <-. rewrite replace_scan_consS. by apply IH.
  - destruct (is_letter c); [|done]. injection H as <-.
    rewrite replace_scan_consS. by apply match_rest_normalized.
Qed.

Lemma replace_scan_idempotent (k : nat) (s : string) :
  normalize_specifiers (replace_scan formatSpecifier "%x" k s)
  = replace_scan formatSpecifier "%x" k s.
Proof.
  unfold normalize_specifiers.
  revert k. induction s as [|c s IH]; intros k; [by destruct k|].
  destruct k as [|k]; [|rewrite replace_scan_consS; apply IH].
  rewrite replace_scan_cons0.
  destruct (match_here formatSpecifier (String c s)) as [[|n]|] eqn:Hm.
  - by destruct (match_spec_positive (String c s)).
  - rewrite match_spec_cons in Hm.
    destruct (Ascii.eqb "%"%char c); [|done].
    destruct (match_here specifier_rest s) as [m|] eqn:Hr; [|done].
    injection Hm as <-. apply match_rest_after in Hr.
    rewrite (replace_match formatSpecifier "%x" "%x"); [by rewrite IH| |done].
    change (match_here formatSpecifier ("%x" +:+ replace_scan formatSpecifier "%x" m s))
      with (S <$> match_here specifier_rest
                    (String "x"%char (replace_scan formatSpecifier "%x" m s))).
    rewrite match_rest_cons, Hr. reflexivity.
  - rewrite match_spec_cons in Hm.
    rewrite replace_copy; [by rewrite IH|].
    rewrite match_spec_cons.
    destruct (Ascii.eqb "%"%char c); [|done].
    destruct (match_here specifier_rest s) as [m|] eqn:Hr; [done|].
    by rewrite (match_rest_normalized _ Hr).
Qed.

Lemma normalize_empty (s : string) : normalize_specifiers s = "" <-> s = "".
Proof.
  split; [|by intros ->]. destruct s as [|c s]; [done|].
  unfold normalize_specifiers, regexp_ReplaceAllString.
  rewrite replace_scan_cons0. by repeat case_match.
Qed.

Lemma normalize_starts (P : ascii -> bool) (s : string) :
  P "%"%char = false -> starts_with P s = false ->
  starts_with P (normalize_specifiers s) = false.
Proof.
  intros Hp Hs. unfold normalize_specifiers, regexp_ReplaceAllString.
  destruct (replace_scan_head s) as [->|(c & out & -> & _ & Hc)]; [done|].
  simpl. by apply Hc.
Qed.

Lemma ends_with_cons (P : ascii -> bool) (c : ascii) (s : string) :
  s <> "" -> ends_with P (String c s) = ends_with P s.
Proof. by destruct s. Qed.

Lemma replace_scan_ends (P : ascii -> bool) (k : nat) (s : string) :
  P "x"%char = false -> ends_with P s = false ->
  ends_with P (replace_scan formatSpecifier "%x" k s) = false.
Proof.
  intros Hx. revert k. induction s as [|c s IH]; intros k Hs; [by destruct k|].
  assert (forall j, ends_with P (replace_scan formatSpecifier "%x" j s) = false) as Hrec.
  { intros j. destruct s as [|d s]; [by destruct j|]. apply IH.
    by rewrite ends_with_cons in Hs. }
  destruct k as [|k]; [|by rewrite replace_scan_consS].
  rewrite replace_scan_cons0.
  destruct (match_here formatSpecifier (String c s)) as [[|n]|] eqn:Hm.
  - destruct (replace_scan formatSpecifier "%x" 0 s) as [|d out] eqn:Hout.
    + apply normalize_empty in Hout as ->. exact Hs.
    + rewrite ends_with_cons by done. rewrite <- Hout. apply Hrec.
  - change ("%x" +:+ replace_scan formatSpecifier "%x" n s)
      with (String "%"%char (String "x"%char (replace_scan formatSpecifier "%x" n s))).
    rewrite ends_with_cons by done.
    destruct (replace_scan formatSpecifier "%x" n s) as [|d out] eqn:Hout; [exact Hx|].
    rewrite ends_with_cons by done. rewrite <- Hout. apply Hrec.
  - destruct (replace_scan formatSpecifier "%x" 0 s) as [|d out] eqn:Hout.
    + apply normalize_empty in Hout as ->. exact Hs.
    + rewrite ends_with_cons by done. rewrite <- Hout. apply Hrec.
Qed.

Lemma extractStringLiteral_string (p : token_Pos) (v : string) :
  extractStringLiteral (EBasicLit p token_STRING v)
  = normalize_specifiers (strings_Trim v quote_cutset).
Proof. reflexivity. Qed.

Lemma extractStringLiteral_cases (e : Expr) :
  extractStringLiteral e = ""
  \/ exists p v,
       e = EBasicLit p token_STRING v
       /\ extractStringLiteral e = normalize_specifiers (strings_Trim v quote_cutset).
Proof.
  destruct e as [id|p k v|X Sel|g gargs|p]; try by left.
  destruct k; try by left. right. by exists p, v.
Qed.

Lemma key_edges (e : Expr) :
  starts_with is_quote (extractStringLiteral e) = false
  /\ ends_with is_quote (extractStringLiteral e) = false.
Proof.
  destruct (extractStringLiteral_cases e) as [->|(p & v & _ & ->)]; [done|].
  split.
  - apply normalize_starts; [reflexivity|apply TrimLeft_starts].
  - apply replace_scan_ends; [reflexivity|].
    apply TrimLeft_ends, TrimRight_ends.
Qed.

Lemma key_trimmed (e : Expr) :
  strings_Trim (extractStringLiteral e) quote_cutset = extractStringLiteral e.
Proof.
  destruct (key_edges e) as [Hs He]. unfold strings_Trim.
  rewrite (TrimRight_id _ _ He). by apply TrimLeft_id.
Qed.

Lemma key_normalized (e : Expr) :
  normalize_specifiers (extractStringLiteral e) = extractStringLiteral e.
Proof.
  destruct (extractStringLiteral_cases e) as [->|(p & v & _ & ->)]; [done|].
  apply replace_scan_idempotent.
Qed.

(** X9. A key is its own key: written back as an interpreted or as a raw
    literal it is extracted unchanged, and normalizing a normalized text
    changes nothing, the placeholder being itself a specifier that is
    replaced by itself. *)
Theorem key_round_trip (e : Expr) (p : token_Pos) (s : string) :
  extractStringLiteral (str_lit p (dq (extractStringLiteral e)))
  = extractStringLiteral e
  /\ extractStringLiteral (str_lit p (bq (extractStringLiteral e)))
     = extractStringLiteral e
  /\ normalize_specifiers (normalize_specifiers s) = normalize_specifiers s.
Proof.
  split; [|split].
  - by rewrite extractStringLiteral_dq, key_trimmed, key_normalized.
  - by rewrite extractStringLiteral_bq, key_trimmed, key_normalized.
  - apply (replace_scan_idempotent 0 s).
Qed.

Lemma str_all_app (P : ascii -> bool) (a b : string) :
  str_all P (a +:+ b) = str_all P a && str_all P b.
Proof.
  induction a as [|c a IH]; [done|].
  rewrite str_app_cons. simpl. by rewrite IH, andb_assoc.
Qed.

Lemma TrimLeft_empty (cutset s : string) :
  strings_TrimLeft s cutset = "" <-> str_all (in_cutset cutset) s = true.
Proof.
  induction s as [|c s IH]; [done|]. simpl.
  destruct (in_cutset cutset c); [done|]. by split.
Qed.

Lemma TrimRight_empty (cutset s : string) :
  strings_TrimRight s cutset = "" <-> str_all (in_cutset cutset) s = true.
Proof.
  induction s as [|c s IH]; [done|]. simpl.
  destruct (strings_TrimRight s cutset) as [|d r].
  - destruct (in_cutset cutset c); simpl; [|by split].
    split; [intros _; by apply IH|done].
  - split; [done|]. intros [_ H]%andb_true_iff. by apply IH in H.
Qed.

Lemma Trim_empty (cutset s : string) :
  strings_Trim s cutset = "" <-> str_all (in_cutset cutset) s = true.
Proof.
  unfold strings_Trim. rewrite TrimLeft_empty. split.
  - intros H. destruct (TrimRight_suffix cutset s) as (post & Hs & Hpost).
    rewrite Hs, str_all_app, H. exact Hpost.
  - intros H. by apply TrimRight_empty in H as ->.
Qed.

(** X10. A string literal has no key, and the call that would take its
    message from it is ignored, exactly when its token is made of quote and
    backquote bytes only (the empty literal in either style, for one); a
    literal of any other kind and an expression that is no literal have no
    key. *)
Theorem empty_key (e : Expr) :
  extractStringLiteral e = ""
  <-> match e with
      | EBasicLit _ token_STRING v => str_all is_quote v = true
      | _ => True
      end.
Proof.
  destruct e as [id|p k v|X Sel|g gargs|p]; try done.
  destruct k; try done.
  rewrite extractStringLiteral_string, normalize_empty. apply Trim_empty.
Qed.

(** X11. A key never starts and never ends with a double quote or a
    backquote. *)
Theorem key_without_edge_quotes (e : Expr) :
  starts_with is_quote (extractStringLiteral e) = false
  /\ ends_with is_quote (extractStringLiteral e) = false.
Proof.
  destruct (extractStringLiteral_cases e) as [->|(p & v & _ & ->)]; [done|].
  split.
  - apply normalize_starts; [reflexivity|]. apply TrimLeft_starts.
  - apply replace_scan_ends; [reflexivity|].
    apply TrimLeft_ends. apply TrimRight_ends.
Qed.

Lemma replace_scan_length (k : nat) (s : string) :
  (String.length (replace_scan formatSpecifier "%x" k s) <= String.length s - k)%nat.
Proof.
  revert k. induction s as [|c s IH]; intros k; [by destruct k|].
  destruct k as [|k]; [|rewrite replace_scan_consS; apply IH].
  rewrite replace_scan_cons0.
  destruct (match_here formatSpecifier (String c s)) as [[|n]|] eqn:Hm.
  - simpl. specialize (IH 0%nat). lia.
  - rewrite match_spec_cons in Hm.
    destruct (Ascii.eqb "%"%char c); [|done].
    destruct (match_here specifier_rest s) as [m|] eqn:Hr; [|done].
    injection Hm as <-. apply match_rest_bounds in Hr.
    rewrite str_length_app. specialize (IH m). simpl. lia.
  - simpl. specialize (IH 0%nat). lia.
Qed.

Lemma Trim_length (cutset s : string) :
  (String.length (strings_Trim s cutset) <= String.length s)%nat.
Proof.
  unfold strings_Trim.
  destruct (TrimRight_suffix cutset s) as (post & Hs & _).
  destruct (TrimLeft_prefix cutset (strings_TrimRight s cutset)) as (pre & Hr & _).
  apply (f_equal String.length) in Hs, Hr.
  rewrite str_length_app in Hs, Hr. lia.
Qed.

(** X12. A key is never longer than the text between the delimiters of its
    literal: trimming and the replacement of specifiers only shorten. *)
Theorem key_length (p : token_Pos) (content : string) :
  (String.length (extractStringLiteral (str_lit p (dq content)))
   <= String.length content)%nat
  /\ (String.length (extractStringLiteral (str_lit p (bq content)))
      <= String.length content)%nat.
Proof.
  rewrite extractStringLiteral_dq, extractStringLiteral_bq.
  assert (String.length (normalize_specifiers (strings_Trim content quote_cutset))
          <= String.length content)%nat; [|done].
  pose proof (replace_scan_length 0 (strings_Trim content quote_cutset)).
  pose proof (Trim_length quote_cutset content).
  unfold normalize_specifiers, regexp_ReplaceAllString. lia.
Qed.

(** ** The map as a partition of the recorded calls *)

Lemma flat_map_nil {A B : Type} (f : A -> list B) (l : list A) :
  (forall a, a ∈ l -> f a = []) -> flat_map f l = [].
Proof.
  induction l as [|a l IH]; intros H; [done|]. simpl.
  rewrite (H a) by apply list_elem_of_here.
  apply IH. intros b Hb. apply H. by apply list_elem_of_further.
Qed.

Lemma flat_map_agree {A B : Type} (f g : A -> list B) (l : list A) :
  (forall a, a ∈ l -> f a = g a) -> flat_map f l = flat_map g l.
Proof.
  induction l as [|a l IH]; intros H; [done|]. simpl.
  rewrite (H a) by apply list_elem_of_here. f_equal.
  apply IH. intros b Hb. apply H. by apply list_elem_of_further.
Qed.

Lemma map_flat_map_comm {A B C : Type} (h : B -> C) (f : A -> list B) (l : list A) :
  map h (flat_map f l) = flat_map (fun a => map h (f a)) l.
Proof.
  induction l as [|a l IH]; [done|]. simpl. by rewrite map_app, IH.
Qed.

Lemma flat_map_insert_block {A : Type} (K : list string) (k0 : string) (x : A)
    (F : string -> list A) :
  NoDup K -> k0 ∈ K ->
  flat_map (fun k => if String.eqb k0 k then x :: F k else F k) K
  ≡ₚ x :: flat_map F K.
Proof.
  induction K as [|k K IH]; intros Hnd Hin; [by apply elem_of_nil in Hin|].
  apply NoDup_cons in Hnd as [Hk Hnd]. simpl.
  destruct (String.eqb_spec k0 k) as [->|Hne].
  - simpl. do 2 f_equiv. rewrite (flat_map_agree _ F); [done|].
    intros k' Hk'. destruct (String.eqb_spec k k') as [->|]; [done|done].
  - apply elem_of_cons in Hin as [?|Hin]; [done|].
    rewrite (IH Hnd Hin). by rewrite Permutation_middle.
Qed.

Lemma group_of_cons (key : string) (node : CallExpr) (nodes : list CallExpr) :
  group_of key (node :: nodes)
  = match occurrence node with
    | Some (msg, info) =>
        if String.eqb msg key then info :: group_of key nodes
        else group_of key nodes
    | None => group_of key nodes
    end.
Proof.
  unfold group_of. simpl. destruct (occurrence node) as [[msg info]|]; [|done].
  by destruct (String.eqb msg key).
Qed.

(** The occurrences of the selected keys of a duplicate-free list of keys
    are the records of the nodes with such a key. *)
Lemma groups_partition (sel : string -> bool) (K : list string)
    (nodes : list CallExpr) :
  NoDup K ->
  flat_map (fun k => if sel k then group_of k nodes else []) K
  ≡ₚ omap (fun node =>
             match occurrence node with
             | Some (k, info) =>
                 if sel k && bool_decide (k ∈ K) then Some info else None
             | None => None
             end) nodes.
Proof.
  intros Hnd. induction nodes as [|node nodes IH].
  - rewrite flat_map_nil; [done|]. intros k _. by destruct (sel k).
  - cbn [omap list_omap]. destruct (occurrence node) as [[k0 info]|] eqn:Ho.
    + destruct (sel k0 && bool_decide (k0 ∈ K)) eqn:Hsel.
      * apply andb_true_iff in Hsel as [Hs Hin]. apply bool_decide_eq_true in Hin.
        rewrite <- IH, <- (flat_map_insert_block K k0 info) by done.
        apply reflexive_eq, flat_map_agree.
        intros k _. rewrite group_of_cons, Ho.
        destruct (String.eqb_spec k0 k) as [<-|]; [by rewrite Hs|done].
      * rewrite <- IH. apply reflexive_eq, flat_map_agree.
        intros k Hk. rewrite group_of_cons, Ho.
        destruct (String.eqb_spec k0 k) as [<-|]; [|done].
        apply andb_false_iff in Hsel as [->|Hin]; [done|].
        apply bool_decide_eq_false in Hin. done.
    + rewrite <- IH. apply reflexive_eq, flat_map_agree.
      intros k _. by rewrite group_of_cons, Ho.
Qed.

Lemma registry_entries {B : Type} (nodes : list CallExpr)
    (f : string -> list ErrorInfo -> list B) :
  flat_map (fun entry => f entry.1 entry.2) (map_to_list (registry nodes))
  = flat_map (fun k => f k (group_of k nodes)) (map_to_list (registry nodes)).*1.
Proof.
  assert (Forall (fun entry => entry.2 = group_of entry.1 nodes)
            (map_to_list (registry nodes))) as Hall.
  { apply Forall_forall. intros [k g] Hin.
    by apply elem_of_map_to_list, registry_group in Hin as [-> _]. }
  induction Hall as [|[k g] l Hg _ IH]; [done|].
  simpl in *. by rewrite Hg, IH.
Qed.

Lemma registry_key (nodes : list CallExpr) (key : string) :
  group_of key nodes <> [] -> key ∈ (map_to_list (registry nodes)).*1.
Proof.
  intros Hne. apply list_elem_of_fmap. exists (key, group_of key nodes).
  split; [done|]. by apply elem_of_map_to_list, registry_group.
Qed.

Lemma occurrence_group (node : CallExpr) (nodes : list CallExpr)
    (key : string) (info : ErrorInfo) :
  node ∈ nodes -> occurrence node = Some (key, info) -> group_of key nodes <> [].
Proof.
  intros Hin Ho Hnil.
  assert (info ∈ group_of key nodes) as H by (apply elem_of_group_of; eauto).
  rewrite Hnil in H. by apply elem_of_nil in H.
Qed.

Lemma omap_agree {A B : Type} (f g : A -> option B) (l : list A) :
  (forall a, a ∈ l -> f a = g a) -> omap f l = omap g l.
Proof.
  induction l as [|a l IH]; intros H; [done|]. cbn [omap list_omap].
  rewrite (H a) by apply list_elem_of_here.
  assert (omap f l = omap g l) as ->; [|done].
  apply IH. intros b Hb. apply H. by apply list_elem_of_further.
Qed.

Lemma recorded_length (nodes : list CallExpr) :
  length (recorded nodes) = length (List.filter is_recorded nodes).
Proof.
  unfold recorded, is_recorded.
  induction nodes as [|node nodes IH]; [done|].
  cbn [omap list_omap List.filter].
  destruct (occurrence node) as [[k i]|]; simpl; [|exact IH].
  f_equal. exact IH.
Qed.

(** X13. The map holds every recorded call exactly once: the occurrence
    lists of its entries, put together, are the records of the recorded
    nodes up to order, whatever the order in which the entries are
    enumerated. *)
Theorem registry_partitions_recorded
    (range : gmap string (list ErrorInfo) -> list (string * list ErrorInfo))
    (nodes : list CallExpr) (errorMap : gmap string (list ErrorInfo)) :
  map_range range ->
  Preorder nodes ∅ = Ok errorMap ->
  concat (map snd (range errorMap)) ≡ₚ recorded nodes
  /\ Forall (fun info => Pos info ∈ nodes) (recorded nodes)
  /\ length (recorded nodes) = length (List.filter is_recorded nodes).
Proof.
  intros Hrange Hmap. rewrite Preorder_registry in Hmap. injection Hmap as <-.
  split; [|split].
  - rewrite <- flat_map_concat_map, (Permutation_flat_map snd (Hrange _)).
    transitivity
      (flat_map (fun k => group_of k nodes) (map_to_list (registry nodes)).*1);
      [apply reflexive_eq; exact (registry_entries nodes (fun _ g => g))|].
    etrans;
      [exact (groups_partition (fun _ => true) _ nodes (NoDup_fst_map_to_list _))|].
    apply reflexive_eq, omap_agree. intros node Hin.
    destruct (occurrence node) as [[k info]|] eqn:Ho; [|done].
    rewrite bool_decide_eq_true_2; [done|].
    by eapply registry_key, occurrence_group.
  - apply Forall_forall. intros info (node & Hin & Ho)%list_elem_of_omap.
    destruct (occurrence node) as [[k i]|] eqn:Hon; simplify_eq/=.
    by destruct (occurrence_info _ _ _ Hon) as [-> _].
  - apply recorded_length.
Qed.

Lemma registry_partitions_recorded_witness :
  map_range map_to_list
  /\ Preorder test_nodes ∅ = Ok (registry test_nodes)
  /\ concat (map snd (map_to_list (registry test_nodes))) ≡ₚ recorded test_nodes.
Proof.
  split; [apply map_to_list_range|]. split; [apply Preorder_registry|].
  apply (registry_partitions_recorded map_to_list test_nodes (registry test_nodes));
    [apply map_to_list_range|apply Preorder_registry].
Defined.

(** ** What is reported *)

Lemma concat_nil_all {A : Type} (ls : list (list A)) :
  concat ls = [] -> Forall (fun l => l = []) ls.
Proof.
  induction ls as [|l ls IH]; [by constructor|]. simpl.
  intros [-> H]%app_eq_nil. constructor; [done|by apply IH].
Qed.

(** X14. A run is silent exactly when no key has two occurrences: it
    reports nothing if every key is used by at most one recorded call, and
    at least one diagnostic otherwise; an empty package is silent. *)
Theorem silent_iff_no_duplicate
    (Fset_Position : token_Pos -> Position) (quote_escapes : string -> string)
    (range : gmap string (list ErrorInfo) -> list (string * list ErrorInfo))
    (nodes : list CallExpr) :
  map_range range ->
  (run Fset_Position quote_escapes range nodes = Ok []
   <-> forall key, (length (group_of key nodes) <= 1)%nat)
  /\ run Fset_Position quote_escapes range [] = Ok [].
Proof.
  intros Hrange. split.
  - split; [|by apply no_group_no_report].
    rewrite run_returns. intros [= Hnil] key.
    apply concat_nil_all in Hnil.
    destruct (group_of key nodes) as [|info g] eqn:Hg; [simpl; lia|].
    rewrite <- Hg.
    apply (group_diagnostics_nil Fset_Position quote_escapes (key, group_of key nodes)).
    rewrite Forall_forall in Hnil. apply Hnil.
    apply list_elem_of_fmap. exists (key, group_of key nodes). split; [done|].
    rewrite (Hrange _). apply elem_of_map_to_list, registry_group.
    split; [done|]. by rewrite Hg.
  - apply no_group_no_report; [done|]. intros key. simpl. lia.
Qed.

Lemma silent_iff_no_duplicate_witness :
  map_range map_to_list
  /\ run test_Fset plain_q map_to_list
       [ errors_New 2902 [str_lit 2913 (dq "error one")];
         errors_New 3002 [str_lit 3013 (dq "error two")];
         errors_New 3102 [str_lit 3113 (dq "error three")] ]
     = Ok []
  /\ forall key,
       (length (group_of key
                  [ errors_New 2902 [str_lit 2913 (dq "error one")];
                    errors_New 3002 [str_lit 3013 (dq "error two")];
                    errors_New 3102 [str_lit 3113 (dq "error three")] ]) <= 1)%nat.
Proof.
  split; [apply map_to_list_range|]. split; [reflexivity|].
  apply (silent_iff_no_duplicate test_Fset plain_q map_to_list
           [ errors_New 2902 [str_lit 2913 (dq "error one")];
             errors_New 3002 [str_lit 3013 (dq "error two")];
             errors_New 3102 [str_lit 3113 (dq "error three")] ]
           map_to_list_range).
  reflexivity.
Defined.

Lemma duplicated_positions (K : list string) (nodes l : list CallExpr) :
  (forall key, group_of key nodes <> [] -> key ∈ K) ->
  map (fun info => CallExpr_Pos (Pos info))
    (omap (fun node =>
             match occurrence node with
             | Some (k, info) =>
                 if (1 <? length (group_of k nodes))%nat && bool_decide (k ∈ K)
                 then Some info else None
             | None => None
             end) l)
  = map CallExpr_Pos (List.filter (duplicated nodes) l).
Proof.
  intros HK. induction l as [|node l IH]; [done|].
  cbn [omap list_omap List.filter]. unfold duplicated at 1.
  destruct (occurrence node) as [[k info]|] eqn:Ho; [|exact IH].
  destruct (1 <? length (group_of k nodes))%nat eqn:Hd; [|exact IH].
  rewrite bool_decide_eq_true_2.
  - simpl. destruct (occurrence_info _ _ _ Ho) as [-> _]. f_equal. exact IH.
  - apply HK. intros Hnil. by rewrite Hnil in Hd.
Qed.

(** X15. The diagnostics of a run are, one for one, the recorded calls
    whose key has more than one occurrence: their positions are the
    positions of these nodes up to order, so their number is the number of
    these nodes, and a call that is not recorded or whose key is its own
    gets none. *)
Theorem diagnostics_cover_duplicates
    (Fset_Position : token_Pos -> Position) (quote_escapes : string -> string)
    (range : gmap string (list ErrorInfo) -> list (string * list ErrorInfo))
    (nodes : list CallExpr) :
  map_range range ->
  exists ds,
    run Fset_Position quote_escapes range nodes = Ok ds
    /\ map diag_Pos ds ≡ₚ map CallExpr_Pos (List.filter (duplicated nodes) nodes)
    /\ length ds = length (List.filter (duplicated nodes) nodes).
Proof.
  intros Hrange. eexists. split; [apply run_returns|].
  assert (map diag_Pos
            (concat (map (group_diagnostics Fset_Position quote_escapes)
                       (range (registry nodes))))
          ≡ₚ map CallExpr_Pos (List.filter (duplicated nodes) nodes)) as Hperm.
  { rewrite <- flat_map_concat_map, map_flat_map_comm.
    rewrite (Permutation_flat_map _ (Hrange _)).
    rewrite (flat_map_agree _
               (fun entry =>
                  (fun k g => map (fun info => CallExpr_Pos (Pos info))
                                (if (1 <? length g)%nat then g else []))
                    entry.1 entry.2));
      [|by intros [k g] _; apply group_diagnostics_positions].
    rewrite (registry_entries nodes
               (fun k g => map (fun info => CallExpr_Pos (Pos info))
                             (if (1 <? length g)%nat then g else []))).
    rewrite <- (duplicated_positions (map_to_list (registry nodes)).*1 nodes nodes)
      by apply registry_key.
    rewrite <- (groups_partition
                  (fun k => (1 <? length (group_of k nodes))%nat)
                  (map_to_list (registry nodes)).*1 nodes)
      by apply NoDup_fst_map_to_list.
    rewrite map_flat_map_comm. apply reflexive_eq, flat_map_agree.
    intros k _. by destruct (1 <? length (group_of k nodes))%nat. }
  split; [exact Hperm|].
  apply Permutation_length in Hperm. by rewrite !length_map in Hperm.
Qed.

Lemma diagnostics_cover_duplicates_witness :
  map_range map_to_list
  /\ exists ds,
       run test_Fset plain_q map_to_list test_nodes = Ok ds
       /\ length ds = 4%nat.
Proof.
  split; [apply map_to_list_range|].
  destruct (diagnostics_cover_duplicates test_Fset plain_q map_to_list test_nodes
              map_to_list_range) as (ds & Hrun & _ & Hlen).
  exists ds. split; [exact Hrun|]. exact Hlen.
Defined.

(** ** Growth of the map *)

(** X16. The traversal only appends: visiting further nodes keeps every key
    of the map and extends its list at the end by the occurrences of the
    new nodes, in their order; nothing is removed or reordered, and
    traversing a list of nodes is traversing its parts one after the
    other. *)
Theorem traversal_appends
    (nodes more : list CallExpr) (errorMap : gmap string (list ErrorInfo)) :
  Preorder nodes ∅ = Ok errorMap ->
  exists errorMap',
    Preorder more errorMap = Ok errorMap'
    /\ Preorder (nodes ++ more) ∅ = Ok errorMap'
    /\ (forall key locations,
          errorMap !! key = Some locations ->
          errorMap' !! key = Some (locations ++ group_of key more))
    /\ (forall key,
          errorMap !! key = None ->
          errorMap' !! key
          = match group_of key more with [] => None | g => Some g end).
Proof.
  rewrite Preorder_registry. intros [= <-].
  exists (foldl record (registry nodes) more).
  split; [apply Preorder_foldl|]. split.
  - rewrite Preorder_foldl. unfold registry. by rewrite foldl_app.
  - split.
    + intros key locations Hk. rewrite lookup_foldl_record, Hk. simpl.
      destruct (group_of key more); [by rewrite app_nil_r|done].
    + intros key Hk. rewrite lookup_foldl_record, Hk. simpl. done.
Qed.

Lemma traversal_appends_witness :
  Preorder (take 2 test_nodes) ∅ = Ok (registry (take 2 test_nodes))
  /\ exists errorMap',
       Preorder (take 2 test_nodes ++ drop 2 test_nodes) ∅ = Ok errorMap'
       /\ errorMap' !! "connection failed"
          = Some ([ mkErrorInfo (errors_New 100 [str_lit 111 (dq "connection failed")])
                      "errors.New" ]
                  ++ group_of "connection failed" (drop 2 test_nodes)).
Proof.
  split; [apply Preorder_registry|].
  destruct (traversal_appends (take 2 test_nodes) (drop 2 test_nodes)
              (registry (take 2 test_nodes)) (Preorder_registry _))
    as (errorMap' & _ & Happ & Hkeep & _).
  exists errorMap'. split; [exact Happ|].
  apply Hkeep. reflexivity.
Defined.

(** ** The scan of the arguments *)

Lemma find_first {A : Type} (f : A -> bool) (l : list A) (x : A) :
  find f l = Some x ->
  exists before after,
    l = before ++ x :: after /\ f x = true /\ forallb (fun y => negb (f y)) before = true.
Proof.
  induction l as [|a l IH]; [done|]. simpl.
  destruct (f a) eqn:Hfa.
  - intros [= <-]. by exists [], l.
  - intros (before & after & -> & Hx & Hb)%IH.
    exists (a :: before), after. simpl. by rewrite Hfa.
Qed.

(** X17. For a construct without a case of its own in the switch, the test
    on the first argument adds nothing to the scan: the message argument is
    the first string literal among the arguments, every argument before it
    being something else, and there is none exactly when no argument is a
    string literal. *)
Theorem default_takes_first_literal (construct : string) (args : list Expr) :
  existsb (String.eqb construct) switch_cases = false ->
  select_msgArg construct args = Ok (find is_string_lit args)
  /\ (forall lit,
        find is_string_lit args = Some lit ->
        exists before after,
          args = before ++ lit :: after /\ is_string_lit lit = true
          /\ forallb (fun a => negb (is_string_lit a)) before = true)
  /\ (find is_string_lit args = None
      <-> forallb (fun a => negb (is_string_lit a)) args = true).
Proof.
  intros Hsw. split; [|split].
  - unfold select_msgArg, switch_cases in *.
    change (existsb (String.eqb construct)
              ("errors.New" :: "fmt.Errorf" :: first_arg_constructs))
      with (String.eqb construct "errors.New"
            || (String.eqb construct "fmt.Errorf"
                || existsb (String.eqb construct) first_arg_constructs)) in Hsw.
    apply orb_false_iff in Hsw as [-> Hsw].
    apply orb_false_iff in Hsw as [-> ->].
    destruct args as [|a0 args]; [done|].
    change (0 <? length (a0 :: args))%nat with true. cbv iota.
    rewrite index_head. simpl. by destruct (is_string_lit a0).
  - intros lit. apply find_first.
  - induction args as [|a args IH]; [done|]. simpl.
    destruct (is_string_lit a); [done|]. exact IH.
Qed.

Lemma default_takes_first_literal_witness :
  existsb (String.eqb "NewUserError") switch_cases = false
  /\ select_msgArg "NewUserError"
       [ EIdent (mkIdent 115 "ctx"); str_lit 120 (dq "bad input");
         str_lit 133 (dq "hint") ]
     = Ok (Some (str_lit 120 (dq "bad input"))).
Proof.
  split; [reflexivity|].
  apply (default_takes_first_literal "NewUserError"
           [ EIdent (mkIdent 115 "ctx"); str_lit 120 (dq "bad input");
             str_lit 133 (dq "hint") ]).
  reflexivity.
Defined.
